(** * Spore Box web client: polling loop, message merge and send paths

    A shallow embedding of the browser client of Spore Box (the [api]
    object, [frontend/src/Chat.tsx] and
    [frontend/src/components/MessageInput.tsx]) and the properties of its
    poll protocol, adaptive backoff, visibility handling and send paths.

    The component is event driven: every handler of the source (a timer
    callback, the continuation after an [await], a DOM event handler) runs
    to completion on the JavaScript event loop.  The embedding is therefore
    a state record holding the React state and the closure variables of the
    polling effect, together with the pending timers and promises of the
    environment, and one transition function per handler. *)

From Stdlib Require Import ZArith NArith QArith Qminmax Lqa Lia.
From Stdlib Require Import String Ascii.
From stdpp Require Import base option list gmap sets strings.

Set Default Proof Using "Type".

(** ** JavaScript strings *)

(** A JavaScript string is a sequence of UTF-16 code units. *)
Abbreviation jsstring := (list N).

Module JS.

(** String literals of the source (all ASCII). *)
Definition lit (s : string) : jsstring :=
  N_of_ascii <$> list_ascii_of_string s.

(** [ToBoolean] on a string: only the empty string is falsy. *)
Definition truthy (s : jsstring) : bool :=
  match s with [] => false | _ :: _ => true end.

(** [a || b] on an optional string ([null] is falsy). *)
Definition or_else (a : option jsstring) (b : jsstring) : jsstring :=
  match a with
  | Some s => if truthy s then s else b
  | None => b
  end.

(** ECMAScript [WhiteSpace] and [LineTerminator] code points, the set
    stripped by [String.prototype.trim]. *)
Definition isWhiteSpace (c : N) : bool :=
  ((9 <=? c) && (c <=? 13)            (* TAB LF VT FF CR *)
   || (c =? 32)                       (* SP *)
   || (c =? 160)                      (* NBSP *)
   || (c =? 5760)                     (* U+1680 *)
   || ((8192 <=? c) && (c <=? 8202))  (* U+2000 .. U+200A *)
   || (c =? 8232) || (c =? 8233)      (* LS PS *)
   || (c =? 8239) || (c =? 8287)      (* U+202F U+205F *)
   || (c =? 12288)                    (* U+3000 *)
   || (c =? 65279))%N.                (* ZWNBSP *)

Fixpoint trimStart (s : jsstring) : jsstring :=
  match s with
  | [] => []
  | c :: r => if isWhiteSpace c then trimStart r else s
  end.

Definition trimEnd (s : jsstring) : jsstring :=
  reverse (trimStart (reverse s)).

(** A string made of white space only (the empty string included). *)
Definition blank (s : jsstring) : Prop :=
  Forall (λ c, isWhiteSpace c = true) s.

(** [String.prototype.trim] *)
Definition trim (s : jsstring) : jsstring := trimEnd (trimStart s).

Fixpoint startsWith (s p : jsstring) : bool :=
  match p, s with
  | [], _ => true
  | _ :: _, [] => false
  | a :: p', b :: s' => (a =? b)%N && startsWith s' p'
  end.

Fixpoint indexOfFrom (s needle : jsstring) (i : Z) : Z :=
  if startsWith s needle then i
  else match s with
       | [] => (-1)%Z
       | _ :: r => indexOfFrom r needle (i + 1)%Z
       end.

(** [String.prototype.indexOf]: first position of [needle], or -1. *)
Definition indexOf (s needle : jsstring) : Z := indexOfFrom s needle 0%Z.

(** *** [encodeURIComponent] (ECMAScript [Encode] with the unreserved set) *)

Definition isAlpha (c : N) : bool :=
  ((65 <=? c) && (c <=? 90) || (97 <=? c) && (c <=? 122))%N.
Definition isDigit (c : N) : bool := ((48 <=? c) && (c <=? 57))%N.

(** [- _ . ! ~ * ' ( )] *)
Definition isMark (c : N) : bool :=
  bool_decide (c ∈ [45; 95; 46; 33; 126; 42; 39; 40; 41]%N).

Definition isUnreserved (c : N) : bool := isAlpha c || isDigit c || isMark c.

Definition isHighSurrogate (c : N) : bool := ((55296 <=? c) && (c <=? 56319))%N.
Definition isLowSurrogate (c : N) : bool := ((56320 <=? c) && (c <=? 57343))%N.

(** Code point of a surrogate pair. *)
Definition pairCodePoint (hi lo : N) : N :=
  ((hi - 55296) * 1024 + (lo - 56320) + 65536)%N.

(** UTF-8 octets of a code point. *)
Definition utf8 (cp : N) : list N :=
  (if cp <? 128 then [cp]
   else if cp <? 2048 then [192 + cp / 64; 128 + cp mod 64]
   else if cp <? 65536 then
     [224 + cp / 4096; 128 + (cp / 64) mod 64; 128 + cp mod 64]
   else
     [240 + cp / 262144; 128 + (cp / 4096) mod 64;
      128 + (cp / 64) mod 64; 128 + cp mod 64])%N.

(** Upper-case hexadecimal digit. *)
Definition hexDigit (n : N) : N := (if n <? 10 then 48 + n else 55 + n)%N.

(** ["%XX"] *)
Definition percentEscape (octet : N) : jsstring :=
  [37; hexDigit (octet / 16); hexDigit (octet mod 16)]%N.

Definition escapeCodePoint (cp : N) : jsstring :=
  mbind percentEscape (utf8 cp).

(** [None] stands for the [URIError] thrown on an unpaired surrogate. *)
Fixpoint encodeURIComponent (s : jsstring) : option jsstring :=
  match s with
  | [] => Some []
  | c :: r =>
      if isUnreserved c then (c ::.) <$> encodeURIComponent r
      else if isHighSurrogate c then
        match r with
        | d :: r' =>
            if isLowSurrogate d
            then (escapeCodePoint (pairCodePoint c d) ++.) <$> encodeURIComponent r'
            else None
        | [] => None
        end
      else if isLowSurrogate c then None
      else (escapeCodePoint c ++.) <$> encodeURIComponent r
  end.

(** No unpaired surrogate: the strings on which [encodeURIComponent]
    does not throw. *)
Fixpoint wellFormed (s : jsstring) : bool :=
  match s with
  | [] => true
  | c :: r =>
      if isHighSurrogate c then
        match r with
        | d :: r' => isLowSurrogate d && wellFormed r'
        | [] => false
        end
      else negb (isLowSurrogate c) && wellFormed r
  end.

End JS.

(** ** The message types *)

Inductive MessageType := text | image | file.

#[global] Instance MessageType_eq_dec : EqDecision MessageType.
Proof. solve_decision. Defined.

Definition MessageType_name (t : MessageType) : jsstring :=
  match t with
  | text => JS.lit "text"
  | image => JS.lit "image"
  | file => JS.lit "file"
  end.

Module Message.
Record t := mk {
  id : jsstring;
  content : jsstring;
  sender : jsstring;
  timestamp : jsstring;
  type : MessageType;
  filename : option jsstring;
  fileSize : option N;
  mimeType : option jsstring;
}.
End Message.

Module SendMessageRequest.
Record t := mk {
  content : jsstring;
  sender : jsstring;
  type : MessageType;
  filename : option jsstring;
}.

(** The own properties of the object, as serialised into the JSON body. *)
Definition fields (d : t) : list (jsstring * jsstring) :=
  [(JS.lit "content", content d); (JS.lit "sender", sender d);
   (JS.lit "type", MessageType_name (type d))]
  ++ match filename d with
     | Some f => [(JS.lit "filename", f)]
     | None => []
     end.
End SendMessageRequest.

(** A browser [File] object. *)
Record File := mkFile {
  file_name : jsstring;
  file_type : jsstring;
  file_bytes : list N;
}.

(** ** The [api] object *)

Module api.

Inductive Method := GET | POST.

Inductive FormValue :=
| FormFile (f : File)
| FormString (s : jsstring).

Inductive Body :=
| NoBody
| JsonBody (data : SendMessageRequest.t)
| FormData (entries : list (jsstring * FormValue)).

(** What is handed to axios. *)
Record Request := mkRequest {
  method : Method;
  url : jsstring;
  body : Body;
  headers : list (jsstring * jsstring);
}.

Definition API_BASE : jsstring := JS.lit "/api".

Definition getMessages : Request :=
  mkRequest GET (API_BASE ++ JS.lit "/messages") NoBody [].

Definition sendMessage (data : SendMessageRequest.t) : Request :=
  mkRequest POST (API_BASE ++ JS.lit "/messages") (JsonBody data) [].

Definition uploadFile (f : File) (sender : jsstring) : Request :=
  let formData := [] in
  let formData := formData ++ [(JS.lit "file", FormFile f)] in
  let formData := formData ++ [(JS.lit "sender", FormString sender)] in
  mkRequest POST (API_BASE ++ JS.lit "/upload") (FormData formData)
            [(JS.lit "Content-Type", JS.lit "multipart/form-data")].

(** The shape [pollMessages] gives to the response data.  The caller
    guards [messages] with [response.messages && ...], so the field may
    be missing. *)
Record PollResponse := mkPollResponse {
  messages : option (list Message.t);
  timestamp : jsstring;
}.

(** [None]: [encodeURIComponent] threw, the promise is rejected and no
    request leaves the client. *)
Definition pollMessages (since : jsstring) : option Request :=
  enc ← JS.encodeURIComponent since;
  Some (mkRequest GET (API_BASE ++ JS.lit "/messages/poll?since=" ++ enc) NoBody []).

(** The parsed query of [window.location.search], as the list of
    name-value pairs a [URLSearchParams] object holds. *)
Definition URLSearchParams := list (jsstring * jsstring).

(** [URLSearchParams.prototype.get]: value of the first pair named
    [name], or [null]. *)
Fixpoint get (params : URLSearchParams) (name : jsstring) : option jsstring :=
  match params with
  | [] => None
  | (k, v) :: rest => if decide (k = name) then Some v else get rest name
  end.

Definition getDeviceName (search : URLSearchParams) : jsstring :=
  let params := search in
  JS.or_else (get params (JS.lit "device")) (JS.lit "Browser").

End api.


(** ** [components/MessageInput.tsx] *)

(** The arguments of one call of the [onSendMessage] prop:
    [onSendMessage(content, type, file?)]. *)
Record SendCall := mkSendCall {
  call_content : jsstring;
  call_type : MessageType;
  call_file : option File;
}.

(** An entry of [e.clipboardData.items]; [getAsFile] is [null] for an
    entry that is not a file. *)
Module DataTransferItem.
Record t := mk {
  type : jsstring;
  getAsFile : option File;
}.
End DataTransferItem.

(** The second argument of [handleFileSelect], of type ['image' | 'file']. *)
Inductive FileInputKind := from_image_input | from_file_input.

Definition FileInputKind_type (k : FileInputKind) : MessageType :=
  match k with
  | from_image_input => image
  | from_file_input => file
  end.

Module MessageInput.

(** [handleSubmit]: the call of [onSendMessage] it makes, if any, and the
    new value of the [message] state. *)
Definition handleSubmit (message : jsstring) (disabled : bool)
  : option SendCall * jsstring :=
  if JS.truthy (JS.trim message) && negb disabled then
    let content := JS.trim message in
    (Some (mkSendCall content text None), [])
  else (None, message).

(** [handleFileSelect]; [selected] is [e.target.files?.[0]]. *)
Definition handleFileSelect (selected : option File) (type : FileInputKind)
  : option SendCall :=
  match selected with
  | Some f => Some (mkSendCall [] (FileInputKind_type type) (Some f))
  | None => None
  end.

(** [handlePaste]: the [for] loop over the clipboard items, left by
    [return] at the first image item that yields a file. *)
Fixpoint handlePaste (items : list DataTransferItem.t) : option SendCall :=
  match items with
  | [] => None
  | item :: rest =>
      if bool_decide (JS.indexOf (DataTransferItem.type item) (JS.lit "image") ≠ (-1)%Z)
      then match DataTransferItem.getAsFile item with
           | Some f => Some (mkSendCall [] image (Some f))
           | None => handlePaste rest
           end
      else handlePaste rest
  end.

End MessageInput.

(** ** [Chat.tsx] *)

Module POLLING_CONFIG.
Definition INITIAL_INTERVAL : Q := 3000.
Definition MAX_INTERVAL : Q := 30000.
Definition SUCCESS_MULTIPLIER : Q := 1.
Definition IDLE_MULTIPLIER : Q := 1.5.
Definition ERROR_MULTIPLIER : Q := 2.
End POLLING_CONFIG.

(** JavaScript numbers are IEEE doubles.  The interval is modelled as a
    rational: every value it takes is computed without rounding (see
    [backoff_values] below). *)
Module Math.
(** [Math.min] on two finite numbers. *)
Definition min (a b : Q) : Q := Qmin a b.
End Math.

Module Chat.

(** The updater handed to [setMessages] by [poll]. *)
Definition mergeMessages (response_messages prev : list Message.t)
  : list Message.t :=
  let existingIds : gset (list N) := list_to_set (Message.id <$> prev) in
  let newMessages :=
    filter (λ m, Message.id m ∉ existingIds) response_messages in
  if bool_decide (0 < length newMessages) then prev ++ newMessages else prev.

(** The request [handleSendMessage] hands to the API for one call of
    [onSendMessage], or [None] on the [return] branch. *)
Definition sendRequest (deviceName : jsstring) (c : SendCall)
  : option api.Request :=
  if decide (call_type c = text) then
    Some (api.sendMessage
            (SendMessageRequest.mk (call_content c) deviceName (call_type c) None))
  else match call_file c with
       | Some f => Some (api.uploadFile f deviceName)
       | None => None
       end.

(** What the handlers of the last render have captured: the [deviceName]
    that [handleSendMessage] closes over, and the [disabled] prop
    ([loading]) and the [message] that [handleSubmit] closes over. *)
Module Rendered.
Record t := mk {
  deviceName : jsstring;
  disabled : bool;
  message : jsstring;
}.
End Rendered.

(** The state of the mounted component.
    - React state of [Chat] ([messages], [loading], [deviceName]) and of
      [MessageInput] ([message]), as the [set...] calls made so far leave
      it; the scroll bookkeeping is presentation only and left out.
    - [rendered]: the values of the last render.  A handler reads the
      state through its closure, so it sees these; React renders again
      some time after a state update.
    - The closure variables of the polling effect ([pollInterval],
      [lastTimestamp], [isActive], [currentPollInterval]).
    - The environment: the parsed query of the page URL, [document.hidden],
      the pending [setTimeout] callbacks (all are [poll]) with their delay,
      the promises still awaited, and the log of requests issued so far.
      Timer ids are positive, hence truthy. *)
Record State := mkState {
  messages : list Message.t;
  loading : bool;
  deviceName : jsstring;
  message : jsstring;
  rendered : Rendered.t;
  pollInterval : option nat;
  lastTimestamp : jsstring;
  isActive : bool;
  currentPollInterval : Q;
  search : api.URLSearchParams;
  hidden : bool;
  timers : list (nat * Q);
  nextTimerId : nat;
  initDevicePending : bool;
  loadMessagesPending : bool;
  polls : list (option api.Request);
  sends : list api.Request;
  sent : list api.Request;
}.

Definition set_messages (v : list Message.t) (st : State) : State :=
  mkState v (loading st) (deviceName st) (message st) (rendered st)
    (pollInterval st) (lastTimestamp st) (isActive st) (currentPollInterval
    st) (search st) (hidden st) (timers st) (nextTimerId st)
    (initDevicePending st) (loadMessagesPending st) (polls st) (sends st)
    (sent st).

Definition set_loading (v : bool) (st : State) : State :=
  mkState (messages st) v (deviceName st) (message st) (rendered st)
    (pollInterval st) (lastTimestamp st) (isActive st) (currentPollInterval
    st) (search st) (hidden st) (timers st) (nextTimerId st)
    (initDevicePending st) (loadMessagesPending st) (polls st) (sends st)
    (sent st).

Definition set_deviceName (v : jsstring) (st : State) : State :=
  mkState (messages st) (loading st) v (message st) (rendered st)
    (pollInterval st) (lastTimestamp st) (isActive st) (currentPollInterval
    st) (search st) (hidden st) (timers st) (nextTimerId st)
    (initDevicePending st) (loadMessagesPending st) (polls st) (sends st)
    (sent st).

Definition set_message (v : jsstring) (st : State) : State :=
  mkState (messages st) (loading st) (deviceName st) v (rendered st)
    (pollInterval st) (lastTimestamp st) (isActive st) (currentPollInterval
    st) (search st) (hidden st) (timers st) (nextTimerId st)
    (initDevicePending st) (loadMessagesPending st) (polls st) (sends st)
    (sent st).

Definition set_rendered (v : Rendered.t) (st : State) : State :=
  mkState (messages st) (loading st) (deviceName st) (message st) v
    (pollInterval st) (lastTimestamp st) (isActive st) (currentPollInterval
    st) (search st) (hidden st) (timers st) (nextTimerId st)
    (initDevicePending st) (loadMessagesPending st) (polls st) (sends st)
    (sent st).

Definition set_pollInterval (v : option nat) (st : State) : State :=
  mkState (messages st) (loading st) (deviceName st) (message st) (rendered
    st) v (lastTimestamp st) (isActive st) (currentPollInterval st) (search
    st) (hidden st) (timers st) (nextTimerId st) (initDevicePending st)
    (loadMessagesPending st) (polls st) (sends st) (sent st).

Definition set_lastTimestamp (v : jsstring) (st : State) : State :=
  mkState (messages st) (loading st) (deviceName st) (message st) (rendered
    st) (pollInterval st) v (isActive st) (currentPollInterval st) (search st)
    (hidden st) (timers st) (nextTimerId st) (initDevicePending st)
    (loadMessagesPending st) (polls st) (sends st) (sent st).

Definition set_isActive (v : bool) (st : State) : State :=
  mkState (messages st) (loading st) (deviceName st) (message st) (rendered
    st) (pollInterval st) (lastTimestamp st) v (currentPollInterval st)
    (search st) (hidden st) (timers st) (nextTimerId st) (initDevicePending
    st) (loadMessagesPending st) (polls st) (sends st) (sent st).

Definition set_currentPollInterval (v : Q) (st : State) : State :=
  mkState (messages st) (loading st) (deviceName st) (message st) (rendered
    st) (pollInterval st) (lastTimestamp st) (isActive st) v (search st)
    (hidden st) (timers st) (nextTimerId st) (initDevicePending st)
    (loadMessagesPending st) (polls st) (sends st) (sent st).

Definition set_hidden (v : bool) (st : State) : State :=
  mkState (messages st) (loading st) (deviceName st) (message st) (rendered
    st) (pollInterval st) (lastTimestamp st) (isActive st)
    (currentPollInterval st) (search st) v (timers st) (nextTimerId st)
    (initDevicePending st) (loadMessagesPending st) (polls st) (sends st)
    (sent st).

Definition set_timers (v : list (nat * Q)) (st : State) : State :=
  mkState (messages st) (loading st) (deviceName st) (message st) (rendered
    st) (pollInterval st) (lastTimestamp st) (isActive st)
    (currentPollInterval st) (search st) (hidden st) v (nextTimerId st)
    (initDevicePending st) (loadMessagesPending st) (polls st) (sends st)
    (sent st).

Definition set_nextTimerId (v : nat) (st : State) : State :=
  mkState (messages st) (loading st) (deviceName st) (message st) (rendered
    st) (pollInterval st) (lastTimestamp st) (isActive st)
    (currentPollInterval st) (search st) (hidden st) (timers st) v
    (initDevicePending st) (loadMessagesPending st) (polls st) (sends st)
    (sent st).

Definition set_initDevicePending (v : bool) (st : State) : State :=
  mkState (messages st) (loading st) (deviceName st) (message st) (rendered
    st) (pollInterval st) (lastTimestamp st) (isActive st)
    (currentPollInterval st) (search st) (hidden st) (timers st) (nextTimerId
    st) v (loadMessagesPending st) (polls st) (sends st) (sent st).

Definition set_loadMessagesPending (v : bool) (st : State) : State :=
  mkState (messages st) (loading st) (deviceName st) (message st) (rendered
    st) (pollInterval st) (lastTimestamp st) (isActive st)
    (currentPollInterval st) (search st) (hidden st) (timers st) (nextTimerId
    st) (initDevicePending st) v (polls st) (sends st) (sent st).

Definition set_polls (v : list (option api.Request)) (st : State) : State :=
  mkState (messages st) (loading st) (deviceName st) (message st) (rendered
    st) (pollInterval st) (lastTimestamp st) (isActive st)
    (currentPollInterval st) (search st) (hidden st) (timers st) (nextTimerId
    st) (initDevicePending st) (loadMessagesPending st) v (sends st) (sent st).

Definition set_sends (v : list api.Request) (st : State) : State :=
  mkState (messages st) (loading st) (deviceName st) (message st) (rendered
    st) (pollInterval st) (lastTimestamp st) (isActive st)
    (currentPollInterval st) (search st) (hidden st) (timers st) (nextTimerId
    st) (initDevicePending st) (loadMessagesPending st) (polls st) v (sent st).

Definition set_sent (v : list api.Request) (st : State) : State :=
  mkState (messages st) (loading st) (deviceName st) (message st) (rendered
    st) (pollInterval st) (lastTimestamp st) (isActive st)
    (currentPollInterval st) (search st) (hidden st) (timers st) (nextTimerId
    st) (initDevicePending st) (loadMessagesPending st) (polls st) (sends st)
    v.

(** A render: the handlers and the DOM now show the current state. *)
Definition render (st : State) : State :=
  set_rendered (Rendered.mk (deviceName st) (loading st) (message st)) st.

(** [setTimeout(poll, currentPollInterval)], assigned to [pollInterval]. *)
Definition setTimeout_poll (st : State) : State :=
  let id := nextTimerId st in
  set_pollInterval (Some id)
    (set_nextTimerId (S id)
       (set_timers (timers st ++ [(id, currentPollInterval st)]) st)).

(** [clearTimeout(id)]: no effect when [id] is not pending. *)
Definition clearTimeout (id : nat) (st : State) : State :=
  set_timers (filter (λ t, t.1 ≠ id) (timers st)) st.

(** A request handed to axios. *)
Definition issue (r : api.Request) (st : State) : State :=
  set_sent (sent st ++ [r]) st.

(** [poll], up to its [await]. *)
Definition poll (st : State) : State :=
  if negb (isActive st) then st
  else
    let p := api.pollMessages (lastTimestamp st) in
    let st := match p with Some r => issue r st | None => st end in
    set_polls (polls st ++ [p]) st.

(** [response.messages && response.messages.length > 0] *)
Definition hasMessages (response : api.PollResponse) : bool :=
  match api.messages response with
  | Some ms => bool_decide (0 < length ms)
  | None => false
  end.

(** [poll], from its [await] on: [Some response] when the promise is
    fulfilled, [None] when the [try] block throws. *)
Definition poll_resume (o : option api.PollResponse) (st : State) : State :=
  let st :=
    match o with
    | Some response =>
        let st :=
          if hasMessages response then
            let st :=
              set_messages
                (mergeMessages (default [] (api.messages response)) (messages st))
                st in
            set_currentPollInterval POLLING_CONFIG.INITIAL_INTERVAL st
          else
            set_currentPollInterval
              (Math.min
                 (currentPollInterval st * POLLING_CONFIG.IDLE_MULTIPLIER)
                 POLLING_CONFIG.MAX_INTERVAL) st in
        set_lastTimestamp (api.timestamp response) st
    | None =>
        set_currentPollInterval
          (Math.min
             (currentPollInterval st * POLLING_CONFIG.ERROR_MULTIPLIER)
             POLLING_CONFIG.MAX_INTERVAL) st
    end in
  if isActive st then setTimeout_poll st else st.

Definition handleVisibilityChange (st : State) : State :=
  if hidden st then
    let st := set_isActive false st in
    match pollInterval st with
    | Some id => set_pollInterval None (clearTimeout id st)
    | None => st
    end
  else
    if negb (isActive st) then
      let st := set_isActive true st in
      let st := set_currentPollInterval POLLING_CONFIG.INITIAL_INTERVAL st in
      poll st
    else st.

(** The cleanup returned by the polling effect, run when the component
    unmounts.  Its [removeEventListener] takes [handleVisibilityChange]
    out of the event loop. *)
Definition cleanup (st : State) : State :=
  let st := set_isActive false st in
  match pollInterval st with
  | Some id => clearTimeout id st
  | None => st
  end.

(** [handleSendMessage], up to its [await] (or through [finally] on the
    [return] branch). *)
Definition handleSendMessage (c : SendCall) (st : State) : State :=
  let st := set_loading true st in
  match sendRequest (Rendered.deviceName (rendered st)) c with
  | Some r => set_sends (sends st ++ [r]) (issue r st)
  | None => set_loading false st
  end.

(** [handleSendMessage], from its [await] on. *)
Definition handleSendMessage_resume (o : option Message.t) (st : State) : State :=
  let st :=
    match o with
    | Some newMessage => set_messages (messages st ++ [newMessage]) st
    | None => st
    end in
  set_loading false st.

Definition onSendMessage (call : option SendCall) (st : State) : State :=
  match call with
  | Some c => handleSendMessage c st
  | None => st
  end.

(** The state once the first render is on screen and the three mount
    effects have run: [initDevice] and [loadMessages] are awaiting (the
    latter has called [setLoading(true)]), the polling effect has
    initialised its variables and made the first call of [poll].  [now]
    is [new Date().toISOString()]. *)
Definition mount (search : api.URLSearchParams) (now : jsstring)
    (hidden : bool) : State :=
  poll
    (issue api.getMessages
       (mkState [] true (JS.lit "Browser") []
          (Rendered.mk (JS.lit "Browser") false [])
          None now true POLLING_CONFIG.INITIAL_INTERVAL
          search hidden [] 1 true true [] [] [])).

(** What the event loop can run next: a continuation of an [await], a
    timer callback, a DOM event handler, or a render.  DOM events are not
    held back while the input is disabled. *)
Inductive Event :=
| Render
| InitDeviceResolved
| LoadMessagesSettled (o : option (list Message.t))
| PollSettled (i : nat) (o : option api.PollResponse)
| TimerFired (id : nat)
| VisibilityChange (nowHidden : bool)
| InputChange (value : jsstring)
| Submit
| FileSelect (selected : option File) (kind : FileInputKind)
| Paste (items : list DataTransferItem.t)
| SendSettled (i : nat) (o : option Message.t).

(** One turn of the event loop; [None] when the event cannot occur in
    this state (no such timer or promise, or a fulfilment of a call that
    sent nothing). *)
Definition step (st : State) (e : Event) : option State :=
  match e with
  | Render => Some (render st)
  | InitDeviceResolved =>
      if initDevicePending st then
        let name := api.getDeviceName (search st) in
        Some (set_deviceName name (set_initDevicePending false st))
      else None
  | LoadMessagesSettled o =>
      if loadMessagesPending st then
        let st := set_loadMessagesPending false st in
        let st := match o with
                  | Some msgs => set_messages msgs st
                  | None => st
                  end in
        Some (set_loading false st)
      else None
  | PollSettled i o =>
      match polls st !! i, o with
      | None, _ => None
      | Some None, Some _ => None
      | Some _, _ => Some (poll_resume o (set_polls (delete i (polls st)) st))
      end
  | TimerFired id =>
      if bool_decide (id ∈ (timers st).*1) then
        Some (poll (clearTimeout id st))
      else None
  | VisibilityChange h =>
      Some (handleVisibilityChange (set_hidden h st))
  | InputChange value => Some (set_message value st)
  | Submit =>
      let '(call, message') :=
        MessageInput.handleSubmit (Rendered.message (rendered st))
          (Rendered.disabled (rendered st)) in
      Some (onSendMessage call (set_message message' st))
  | FileSelect selected kind =>
      Some (onSendMessage (MessageInput.handleFileSelect selected kind) st)
  | Paste items =>
      Some (onSendMessage (MessageInput.handlePaste items) st)
  | SendSettled i o =>
      match sends st !! i with
      | Some _ =>
          Some (handleSendMessage_resume o (set_sends (delete i (sends st)) st))
      | None => None
      end
  end.

Fixpoint run (st : State) (evs : list Event) : option State :=
  match evs with
  | [] => Some st
  | e :: evs' =>
      match step st e with
      | Some st' => run st' evs'
      | None => None
      end
  end.

(** The states the mounted component can be in. *)
Definition reachable (st : State) : Prop :=
  ∃ search now hidden evs, run (mount search now hidden) evs = Some st.

End Chat.


(** ** Vocabulary of the statements *)

(** The [sender] a request carries: the property of the JSON body, or
    the form field. *)
Fixpoint form_sender (entries : list (list N * api.FormValue))
  : option (list N) :=
  match entries with
  | [] => None
  | (k, api.FormString v) :: rest =>
      if decide (k = JS.lit "sender") then Some v else form_sender rest
  | (_, api.FormFile _) :: rest => form_sender rest
  end.

Definition request_sender (r : api.Request) : option (list N) :=
  match api.body r with
  | api.NoBody => None
  | api.JsonBody data => Some (SendMessageRequest.sender data)
  | api.FormData entries => form_sender entries
  end.

(** The requests issued during a step from [st] to [st']. *)
Definition issued (st st' : Chat.State) : list api.Request :=
  drop (length (Chat.sent st)) (Chat.sent st').

(** The render on screen has the device name that [getDeviceName]
    returned. *)
Definition device_name_shown (st : Chat.State) : Prop :=
  Chat.initDevicePending st = false
  ∧ Chat.Rendered.deviceName (Chat.rendered st) = Chat.deviceName st.

(** A request that, if it has a JSON body, carries a text message with a
    trimmed content that is neither empty nor white space only. *)
Definition text_body_ok (r : api.Request) : Prop :=
  ∀ data, api.body r = api.JsonBody data →
    SendMessageRequest.type data = text
    ∧ SendMessageRequest.content data ≠ []
    ∧ ¬ JS.blank (SendMessageRequest.content data)
    ∧ JS.trim (SendMessageRequest.content data) = SendMessageRequest.content data.

(** A request made by [api.pollMessages]. *)
Definition isPollRequest (r : api.Request) : bool :=
  JS.startsWith (api.url r) (JS.lit "/api/messages/poll?since=").

(** A clipboard item whose MIME type contains "image". *)
Definition isImageItem (item : DataTransferItem.t) : Prop :=
  JS.indexOf (DataTransferItem.type item) (JS.lit "image") ≠ (-1)%Z.

(** The ids of the messages on display. *)
Definition ids (l : list Message.t) : list (list N) := Message.id <$> l.

(** The values the interval can take.  Each is a multiple of 1/4 below
    2^15, and so is exact as an IEEE double, as are its products with 1.5
    and 2: on these values the arithmetic of JavaScript numbers and the
    rational arithmetic of the embedding agree. *)
Definition backoff_values : list Q :=
  [3000; 4500; 6000; 6750; 9000; 10125; 12000; 13500; 15187.5; 18000;
   20250; 22781.25; 24000; 27000; 30000]%Q.

#[local] Instance Qeq_decision (a b : Q) : Decision (a == b)%Q := Qeq_dec a b.

Definition exact_interval (q : Q) : Prop :=
  Exists (λ v, (q == v)%Q) backoff_values.

(** An interval between the initial value and the cap, in milliseconds. *)
Definition interval_ok (q : Q) : Prop := (3000 <= q)%Q ∧ (q <= 30000)%Q.

(** One poll in flight or one timer pending, at most, and the timer is
    the one [pollInterval] names. *)
Definition single (st : Chat.State) : Prop :=
  length (Chat.polls st) + length (Chat.timers st) ≤ 1
  ∧ Forall (λ t, Chat.pollInterval st = Some t.1) (Chat.timers st)
  ∧ (Chat.isActive st = false → Chat.timers st = []).

(** A request for the whole history, GET /api/messages. *)
Definition isLoadRequest (r : api.Request) : bool :=
  match api.method r with
  | api.GET => bool_decide (api.url r = JS.lit "/api/messages")
  | api.POST => false
  end.

(** The poll requests in the log. *)
Definition poll_requests (st : Chat.State) : list api.Request :=
  filter (λ r, isPollRequest r = true) (Chat.sent st).

(** What can still run once the component is unmounted: continuations of
    pending promises and timer callbacks. *)
Definition runs_unmounted (e : Chat.Event) : Prop :=
  match e with
  | Chat.InitDeviceResolved | Chat.LoadMessagesSettled _
  | Chat.PollSettled _ _ | Chat.TimerFired _ | Chat.SendSettled _ _ => True
  | _ => False
  end.

(** A run in which the document is shown again only when no poll is in
    flight. *)
Fixpoint calm (st : Chat.State) (evs : list Chat.Event) : Prop :=
  match evs with
  | [] => True
  | e :: evs' =>
      (e = Chat.VisibilityChange false → Chat.isActive st = false →
       Chat.polls st = [])
      ∧ match Chat.step st e with
        | Some st' => calm st' evs'
        | None => True
        end
  end.

(** A poll that completes without messages: fulfilled and empty, or
    failed. *)
Definition backs_off (e : Chat.Event) : bool :=
  match e with
  | Chat.PollSettled _ (Some response) => negb (Chat.hasMessages response)
  | Chat.PollSettled _ None => true
  | _ => false
  end.

(** An event that can set the interval back to its initial value. *)
Definition can_reset (e : Chat.Event) : bool :=
  match e with
  | Chat.PollSettled _ (Some response) => Chat.hasMessages response
  | Chat.VisibilityChange false => true
  | _ => false
  end.

Fixpoint idle_rounds (evs : list Chat.Event) : nat :=
  match evs with
  | [] => 0
  | e :: evs' => (if backs_off e then 1 else 0) + idle_rounds evs'
  end.

(** The interval after [k] idle rounds from the initial value. *)
Fixpoint idle_floor (k : nat) : Q :=
  match k with
  | 0 => 3000
  | S k' => Qmin (idle_floor k' * 1.5) 30000
  end.

(** The cursor after a run: the [timestamp] of the last poll fulfilled in
    it, or the cursor before the run. *)
Fixpoint cursor_after (cursor : list N) (evs : list Chat.Event) : list N :=
  match evs with
  | [] => cursor
  | Chat.PollSettled _ (Some response) :: evs' =>
      cursor_after (api.timestamp response) evs'
  | _ :: evs' => cursor_after cursor evs'
  end.

(** A successful initial load. *)
Definition loads (e : Chat.Event) : Prop :=
  match e with
  | Chat.LoadMessagesSettled (Some _) => True
  | _ => False
  end.

(** A string of UTF-16 code units. *)
Definition codeUnits (s : list N) : Prop := Forall (λ c, (c < 65536)%N) s.

(** The characters an encoded URI component is made of: unreserved ones
    and the percent sign. *)
Definition uriSafe (c : N) : Prop := JS.isUnreserved c = true ∨ c = 37%N.

(** The cursor once a poll made with [cursor] has completed with the
    outcome [o]. *)
Definition next_cursor (cursor : list N) (o : option api.PollResponse)
  : list N :=
  match o with
  | Some response => api.timestamp response
  | None => cursor
  end.

(** The outcomes of the polls that complete in a run, in the order they
    are handled. *)
Fixpoint outcomes (evs : list Chat.Event) : list (option api.PollResponse) :=
  match evs with
  | [] => []
  | Chat.PollSettled _ o :: evs' => o :: outcomes evs'
  | _ :: evs' => outcomes evs'
  end.

(** The cursors of a loop that starts at [cursor] and polls again after
    each outcome. *)
Fixpoint cursors (cursor : list N) (os : list (option api.PollResponse))
  : list (list N) :=
  cursor ::
    match os with
    | [] => []
    | o :: os' => cursors (next_cursor cursor o) os'
    end.

(** ** Reading a URI component

    What the receiver of a URL does with the value of a query parameter:
    percent-decoding to octets (RFC 3986, 2.1) and the octets read as
    UTF-8 (RFC 3629).  The client never decodes; these definitions say
    what URI-encoded means for the URL it builds. *)
Module URI.

(** Value of a hexadecimal digit, either case. *)
Definition hexValue (c : N) : option N :=
  (if (48 <=? c) && (c <=? 57) then Some (c - 48)
   else if (65 <=? c) && (c <=? 70) then Some (c - 55)
   else if (97 <=? c) && (c <=? 102) then Some (c - 87)
   else None)%N.

(** Percent-decoding: the octets a component stands for.  A character
    other than the percent sign stands for itself and has to be ASCII. *)
Fixpoint unescape (s : jsstring) : option (list N) :=
  match s with
  | [] => Some []
  | c :: r =>
      if (c =? 37)%N then
        match r with
        | h :: l :: r' =>
            hi ← hexValue h;
            lo ← hexValue l;
            ((hi * 16 + lo)%N ::.) <$> unescape r'
        | _ => None
        end
      else if (c <? 128)%N then (c ::.) <$> unescape r
      else None
  end.

(** A continuation octet, [10xxxxxx]. *)
Definition isContinuation (o : N) : bool := ((128 <=? o) && (o <? 192))%N.

(** The code points of a UTF-8 octet sequence; [None] on a sequence that
    is not UTF-8 (a stray or missing continuation octet, an overlong
    form, a surrogate, a value past U+10FFFF). *)
Fixpoint utf8Decode (os : list N) : option (list N) :=
  match os with
  | [] => Some []
  | a :: r1 =>
      if (a <? 128)%N then (a ::.) <$> utf8Decode r1
      else if (a <? 192)%N then None
      else if (a <? 224)%N then
        match r1 with
        | b :: r2 =>
            let cp := ((a - 192) * 64 + (b - 128))%N in
            if isContinuation b && (128 <=? cp)%N
            then (cp ::.) <$> utf8Decode r2
            else None
        | _ => None
        end
      else if (a <? 240)%N then
        match r1 with
        | b :: c :: r3 =>
            let cp := ((a - 224) * 4096 + (b - 128) * 64 + (c - 128))%N in
            if isContinuation b && isContinuation c && (2048 <=? cp)%N
               && negb ((55296 <=? cp) && (cp <=? 57343))%N
            then (cp ::.) <$> utf8Decode r3
            else None
        | _ => None
        end
      else if (a <? 248)%N then
        match r1 with
        | b :: c :: d :: r4 =>
            let cp := ((a - 240) * 262144 + (b - 128) * 4096
                       + (c - 128) * 64 + (d - 128))%N in
            if isContinuation b && isContinuation c && isContinuation d
               && (65536 <=? cp)%N && (cp <? 1114112)%N
            then (cp ::.) <$> utf8Decode r4
            else None
        | _ => None
        end
      else None
  end.

(** UTF-16 code units of a code point. *)
Definition utf16 (cp : N) : jsstring :=
  (if cp <? 65536 then [cp]
   else [55296 + (cp - 65536) / 1024; 56320 + (cp - 65536) mod 1024])%N.

(** The string a URI component stands for. *)
Definition decodeComponent (s : jsstring) : option jsstring :=
  os ← unescape s;
  cps ← utf8Decode os;
  Some (cps ≫= utf16).

End URI.

(** ** Scenarios *)

Module Scenario.
Import Chat.

Definition now : jsstring := JS.lit "2024-01-01T00:00:00.000Z".
Definition page : api.URLSearchParams := [(JS.lit "device", JS.lit "iPhone")].

Definition note (id sender content : string) : Message.t :=
  Message.mk (JS.lit id) (JS.lit content) (JS.lit sender)
    (JS.lit "2024-01-01T00:00:01.000Z") text None None None.

Definition fulfilled (ms : list Message.t) (cursor : string)
  : option api.PollResponse :=
  Some (api.mkPollResponse (Some ms) (JS.lit cursor)).

Definition mounted : State := mount page now false.

(** The state a run ends in ([st] itself when the run is not possible). *)
Definition after (st : State) (evs : list Event) : State :=
  default st (run st evs).

(** The first poll has come back empty and its timer has fired. *)
Definition polling_run : list Event :=
  [InitDeviceResolved; LoadMessagesSettled (Some []); Render;
   PollSettled 0 (fulfilled [] "2024-01-01T00:00:03.000Z");
   TimerFired 1].

Definition polling : State := after mounted polling_run.

(** A tab that is hidden and shown again while the first poll is still
    in flight; then both polls come back. *)
Definition overlapping_run : list Event :=
  [VisibilityChange true; VisibilityChange false;
   PollSettled 0 (fulfilled [] "2024-01-01T00:00:01.000Z");
   PollSettled 0 (fulfilled [] "2024-01-01T00:00:02.000Z")].

Definition overlapping : State := after mounted overlapping_run.

(** The same tab, but the answer to the second poll is handled before
    the answer to the first. *)
Definition crossing_run : list Event :=
  [VisibilityChange true; VisibilityChange false;
   PollSettled 1 (fulfilled [] "2024-01-01T00:00:02.000Z");
   PollSettled 0 (fulfilled [] "2024-01-01T00:00:01.000Z")].

Definition crossing : State := after mounted crossing_run.

(** A cursor with a Latin-1 letter and a surrogate pair (U+1F600). *)
Definition odd_cursor : jsstring := JS.lit "v" ++ [233; 55357; 56832]%N.

Definition png : File := mkFile (JS.lit "shot.png") (JS.lit "image/png") [137; 80; 78; 71]%N.

Definition clipboard : list DataTransferItem.t :=
  [DataTransferItem.mk (JS.lit "text/html") None;
   DataTransferItem.mk (JS.lit "image/png") (Some png)].

End Scenario.

(** * Properties *)

(** ** Strings *)

Section Trim.
Import JS.

Lemma trimStart_split (s : jsstring) :
  ∃ pre, s = pre ++ trimStart s ∧ blank pre.
Proof.
  induction s as [|c r IH]; simpl.
  - exists []. split; [done | constructor].
  - destruct (isWhiteSpace c) eqn:E.
    + destruct IH as (pre & Hr & Hpre). exists (c :: pre). split.
      * simpl. by rewrite <- Hr.
      * by constructor.
    + exists []. split; [done | constructor].
Qed.

Lemma trimStart_head (s : jsstring) c r :
  trimStart s = c :: r → isWhiteSpace c = false.
Proof.
  induction s as [|d s IH]; simpl; [done|].
  destruct (isWhiteSpace d) eqn:E; [done|]. by intros [= -> _].
Qed.

Lemma trimStart_idemp (s : jsstring) : trimStart (trimStart s) = trimStart s.
Proof.
  destruct (trimStart s) as [|c r] eqn:E; [done|].
  simpl. by rewrite (trimStart_head _ _ _ E).
Qed.

Lemma trim_not_blank (s : jsstring) : trim s ≠ [] → ¬ blank (trim s).
Proof.
  unfold trim, trimEnd, blank. intros H Hall.
  destruct (trimStart (reverse (trimStart s))) as [|d u] eqn:E.
  - by rewrite reverse_nil in H.
  - rewrite reverse_cons in Hall. apply Forall_app in Hall as [_ Hd].
    rewrite Forall_singleton in Hd. apply trimStart_head in E. congruence.
Qed.

Lemma trim_idemp (s : jsstring) : trim (trim s) = trim s.
Proof.
  unfold trim, trimEnd.
  set (t := trimStart s). set (u := trimStart (reverse t)).
  assert (Hfix : trimStart (reverse u) = reverse u).
  { destruct (trimStart_split (reverse t)) as (pre & Hsplit & _).
    fold u in Hsplit.
    assert (Ht : t = reverse u ++ reverse pre).
    { by rewrite <- reverse_app, <- Hsplit, reverse_involutive. }
    destruct (reverse u) as [|c r] eqn:Eu; [done|].
    simpl. enough (isWhiteSpace c = false) as -> by done.
    eapply (trimStart_head s). fold t. rewrite Ht. done. }
  rewrite Hfix, reverse_involutive. unfold u. by rewrite trimStart_idemp.
Qed.

End Trim.

(** ** The event loop *)

Section EventLoop.
Import Chat.

Lemma run_app (evs1 evs2 : list Event) (st : State) :
  run st (evs1 ++ evs2) = run st evs1 ≫= λ st', run st' evs2.
Proof.
  revert st. induction evs1 as [|e evs1 IH]; intros st; simpl; [done|].
  destruct (step st e); simpl; [apply IH | done].
Qed.

(** Induction over the runs from a given state. *)
Lemma run_invariant (P : State → Prop) :
  (∀ st e st', P st → step st e = Some st' → P st') →
  ∀ evs st st', P st → run st evs = Some st' → P st'.
Proof.
  intros Hstep. induction evs as [|e evs IH]; simpl; intros st st' HP Hrun.
  - by simplify_eq.
  - destruct (step st e) as [st1|] eqn:E; [|done]. eauto.
Qed.

(** Induction over the reachable states. *)
Lemma reachable_ind (P : State → Prop) :
  (∀ search now hidden, P (mount search now hidden)) →
  (∀ st e st', P st → step st e = Some st' → P st') →
  ∀ st, reachable st → P st.
Proof.
  intros Hinit Hstep st (search & now & hidden & evs & Hrun).
  eapply run_invariant; eauto.
Qed.

Lemma reachable_step (st st' : State) (e : Event) :
  reachable st → step st e = Some st' → reachable st'.
Proof.
  intros (search & now & hidden & evs & Hrun) Hstep.
  exists search, now, hidden, (evs ++ [e]).
  rewrite run_app, Hrun. simpl. by rewrite Hstep.
Qed.

End EventLoop.

(** Unfolds one turn of the event loop into its cases. *)
Ltac unfold_handlers :=
  unfold Chat.step, Chat.onSendMessage, Chat.handleSendMessage,
    Chat.handleSendMessage_resume, Chat.handleVisibilityChange,
    Chat.poll_resume, Chat.poll, Chat.setTimeout_poll, Chat.clearTimeout,
    Chat.issue, Chat.hasMessages,
    MessageInput.handleSubmit, MessageInput.handleFileSelect in *.

(** Turns boolean tests in the context into propositions. *)
Ltac reflect_tests :=
  repeat match goal with
    | H : bool_decide _ = true |- _ => apply bool_decide_eq_true in H
    | H : bool_decide _ = false |- _ => apply bool_decide_eq_false in H
    | H : negb _ = true |- _ => apply negb_true_iff in H
    | H : negb _ = false |- _ => apply negb_false_iff in H
    | H : _ && _ = true |- _ => apply andb_true_iff in H as [??]
    end;
  simpl in *.

Ltac step_cases H :=
  unfold_handlers; simpl in H;
  repeat (case_match; simpl in *; simplify_eq); simplify_eq; simpl in *.

(** ** Backoff *)

Section Backoff.
Import Chat.

Lemma initial_ok : interval_ok POLLING_CONFIG.INITIAL_INTERVAL.
Proof. unfold interval_ok, POLLING_CONFIG.INITIAL_INTERVAL. lra. Qed.

Lemma backoff_ok (q m : Q) :
  (1 <= m)%Q → interval_ok q →
  interval_ok (Math.min (q * m) POLLING_CONFIG.MAX_INTERVAL).
Proof.
  unfold interval_ok, Math.min, POLLING_CONFIG.MAX_INTERVAL.
  intros Hm [Hlo Hhi]. split.
  - apply Q.min_glb; [|lra]. nra.
  - apply Q.le_min_r.
Qed.

End Backoff.

Section BackoffInvariant.
Import Chat.

Lemma Forall_filter_keep {A} (P : A → Prop) (Q : A → Prop)
    `{∀ x, Decision (Q x)} (l : list A) :
  Forall P l → Forall P (filter Q l).
Proof.
  rewrite !Forall_forall. intros Hl x [_ Hx]%list_elem_of_filter. auto.
Qed.

Lemma step_interval_ok (st st' : State) (e : Event) :
  interval_ok (currentPollInterval st) ∧
    Forall (λ t, interval_ok t.2) (timers st) →
  step st e = Some st' →
  interval_ok (currentPollInterval st') ∧
    Forall (λ t, interval_ok t.2) (timers st').
Proof.
  intros [Hcur Htim] Hstep.
  pose proof initial_ok as H0.
  pose proof (backoff_ok _ POLLING_CONFIG.IDLE_MULTIPLIER ltac:(done) Hcur) as Hidle.
  pose proof (backoff_ok _ POLLING_CONFIG.ERROR_MULTIPLIER ltac:(done) Hcur) as Herr.
  destruct e; step_cases Hstep.
  all: try (split; [done|]).
  all: try done.
  all: try (apply Forall_app; split; [done|]; by apply Forall_singleton).
  all: by apply Forall_filter_keep.
Qed.

End BackoffInvariant.

Lemma exact_interval_next (q m : Q) :
  m = POLLING_CONFIG.IDLE_MULTIPLIER ∨ m = POLLING_CONFIG.ERROR_MULTIPLIER →
  exact_interval q →
  exact_interval (Math.min (q * m) POLLING_CONFIG.MAX_INTERVAL).
Proof.
  intros Hm (v & Hv & Heq)%Exists_exists.
  assert (E : (Math.min (q * m) POLLING_CONFIG.MAX_INTERVAL ==
               Math.min (v * m) POLLING_CONFIG.MAX_INTERVAL)%Q).
  { unfold Math.min. by rewrite Heq. }
  unfold exact_interval.
  eapply Exists_impl; [|intros x Hx; rewrite E; exact Hx].
  unfold backoff_values in Hv. set_unfold in Hv.
  destruct Hm as [-> | ->].
  all: repeat (destruct Hv as [-> | Hv];
               [eapply bool_decide_unpack; vm_compute; exact I|]).
  all: done.
Qed.

(** X16: the interval only takes the fifteen values of [backoff_values]
    (3000, 4500, 6000, 6750, ..., 27000, 30000), each a multiple of 1/4:
    no rounding ever enters the backoff. *)
Lemma poll_interval_exact (st : Chat.State) :
  Chat.reachable st → exact_interval (Chat.currentPollInterval st).
Proof.
  assert (H0 : exact_interval POLLING_CONFIG.INITIAL_INTERVAL).
  { eapply bool_decide_unpack. vm_compute. exact I. }
  revert st. apply reachable_ind.
  - intros search now hidden. unfold Chat.mount, Chat.poll, Chat.issue. simpl.
    by case_match.
  - intros st e st' IH Hstep.
    pose proof (exact_interval_next _ _ (or_introl eq_refl) IH) as Hidle.
    pose proof (exact_interval_next _ _ (or_intror eq_refl) IH) as Herr.
    destruct e; by step_cases Hstep.
Qed.

(** C4: in every state the mounted component can reach, the polling
    interval lies between 3000 ms and 30000 ms, and so does the delay of
    every timer that is pending. *)
Theorem poll_interval_bounds (st : Chat.State) :
  Chat.reachable st →
  (3000 <= Chat.currentPollInterval st)%Q
  ∧ (Chat.currentPollInterval st <= 30000)%Q
  ∧ ∀ id delay, (id, delay) ∈ Chat.timers st →
      (3000 <= delay)%Q ∧ (delay <= 30000)%Q.
Proof.
  intros Hreach.
  enough (interval_ok (Chat.currentPollInterval st) ∧
          Forall (λ t, interval_ok t.2) (Chat.timers st)) as [[??] Htim].
  { repeat split; try done;
      rewrite Forall_forall in Htim; by destruct (Htim _ H1). }
  revert st Hreach. apply reachable_ind.
  - intros search now hidden. unfold Chat.mount, Chat.poll, Chat.issue. simpl.
    case_match; simpl; (split; [apply initial_ok | constructor]).
  - intros st e st' IH Hstep. by eapply step_interval_ok.
Qed.

Lemma poll_interval_bounds_witness :
  Chat.reachable Scenario.polling
  ∧ (3000 <= Chat.currentPollInterval Scenario.polling)%Q
  ∧ (Chat.currentPollInterval Scenario.polling <= 30000)%Q
  ∧ ∀ id delay, (id, delay) ∈ Chat.timers Scenario.polling →
      (3000 <= delay)%Q ∧ (delay <= 30000)%Q.
Proof.
  assert (Hreach : Chat.reachable Scenario.polling).
  { exists Scenario.page, Scenario.now, false, Scenario.polling_run.
    vm_compute. reflexivity. }
  split; [exact Hreach | apply (poll_interval_bounds _ Hreach)].
Defined.


(** ** The poll round trip *)

(** C2: when a poll completes, the interval becomes 3000 ms if the
    response carried at least one message, min(interval * 1.5, 30000) if
    it was fulfilled without messages, and min(interval * 2, 30000) if the
    poll failed; while the loop is active, the next timer is set with
    exactly this delay. *)
Theorem poll_backoff (st st' : Chat.State) (i : nat)
    (o : option api.PollResponse) :
  Chat.step st (Chat.PollSettled i o) = Some st' →
  Chat.currentPollInterval st' =
    match o with
    | Some response =>
        match api.messages response with
        | Some (_ :: _) => 3000%Q
        | Some [] | None => Qmin (Chat.currentPollInterval st * 1.5) 30000
        end
    | None => Qmin (Chat.currentPollInterval st * 2) 30000
    end
  ∧ (Chat.isActive st = true →
     ∃ id, Chat.timers st' =
             Chat.timers st ++ [(id, Chat.currentPollInterval st')]
           ∧ Chat.pollInterval st' = Some id).
Proof.
  intros Hstep.
  step_cases Hstep; reflect_tests; try lia.
  all: split; [done | intros; try congruence; eauto].
Qed.

Lemma poll_backoff_witness :
  let st := Scenario.polling in
  let o := Scenario.fulfilled [] "2024-01-01T00:00:09.000Z" in
  let st' := Scenario.after st [Chat.PollSettled 0 o] in
  Chat.step st (Chat.PollSettled 0 o) = Some st'
  ∧ (Chat.currentPollInterval st' ==
       Qmin (Chat.currentPollInterval st * 1.5) 30000)%Q
  ∧ (Chat.currentPollInterval st' == 6750)%Q.
Proof.
  intros st o st'.
  assert (Hstep : Chat.step st (Chat.PollSettled 0 o) = Some st')
    by (vm_compute; reflexivity).
  split; [exact Hstep|]. split.
  - rewrite (proj1 (poll_backoff st st' 0 o Hstep)). reflexivity.
  - vm_compute. reflexivity.
Defined.

(** The cursor in one turn of the event loop: a poll that is fulfilled,
    with or without messages, sets it to the [timestamp] field of the
    response; a poll that fails leaves it as it was, and so does every
    other event; and every call of [api.pollMessages] is made with the
    cursor of the moment. *)
Lemma poll_cursor (st st' : Chat.State) (e : Chat.Event) :
  Chat.step st e = Some st' →
  Chat.lastTimestamp st' =
    match e with
    | Chat.PollSettled _ (Some response) => api.timestamp response
    | _ => Chat.lastTimestamp st
    end
  ∧ ∃ started,
      Chat.polls st' =
        match e with
        | Chat.PollSettled i _ => delete i (Chat.polls st)
        | _ => Chat.polls st
        end ++ started
      ∧ (started = [] ∨ started = [api.pollMessages (Chat.lastTimestamp st)]).
Proof.
  intros Hstep. destruct e.
  all: step_cases Hstep; (split; [done|]).
  all: try (exists []; rewrite app_nil_r; by auto).
  all: try (eexists [_]; by auto).
Qed.

Lemma poll_cursor_witness :
  let st := Scenario.polling in
  let e := Chat.PollSettled 0 (Scenario.fulfilled [] "2024-01-01T00:00:09.000Z") in
  let st' := Scenario.after st [e] in
  Chat.step st e = Some st'
  ∧ Chat.lastTimestamp st' = JS.lit "2024-01-01T00:00:09.000Z".
Proof.
  intros st e st'.
  assert (Hstep : Chat.step st e = Some st') by (vm_compute; reflexivity).
  split; [exact Hstep|].
  rewrite (proj1 (poll_cursor st st' e Hstep)). reflexivity.
Defined.

(** C1 does not hold of the code.  When the document is hidden and shown
    again while a poll is in flight, two polls are under way and share
    the one cursor.  Here the answer to the second poll (timestamp
    00:00:02) is handled first and sets the timer of the poll that
    follows it; then the answer to the first poll (timestamp 00:00:01)
    overwrites the cursor.  When that timer fires, the poll that follows
    the round trip answered with 00:00:02 asks for since=00:00:01, and no
    poll of the run asks for since=00:00:02. *)
Theorem overlapping_polls_cross_cursors :
  let answered :=
    Scenario.after Scenario.mounted
      [Chat.VisibilityChange true; Chat.VisibilityChange false;
       Chat.PollSettled 1 (Scenario.fulfilled [] "2024-01-01T00:00:02.000Z")] in
  let st := Scenario.crossing in
  let st' := Scenario.after st [Chat.TimerFired 1] in
  Chat.reachable st
  ∧ Chat.lastTimestamp answered = JS.lit "2024-01-01T00:00:02.000Z"
  ∧ (Chat.timers answered).*1 = [1]
  ∧ Chat.lastTimestamp st = JS.lit "2024-01-01T00:00:01.000Z"
  ∧ Chat.step st (Chat.TimerFired 1) = Some st'
  ∧ issued st st' =
      [api.mkRequest api.GET
         (JS.lit "/api/messages/poll?since=2024-01-01T00%3A00%3A01.000Z")
         api.NoBody []]
  ∧ poll_requests st' =
      omap api.pollMessages
        [Scenario.now; Scenario.now; JS.lit "2024-01-01T00:00:01.000Z"].
Proof.
  split.
  { exists Scenario.page, Scenario.now, false, Scenario.crossing_run.
    vm_compute. reflexivity. }
  vm_compute. by repeat split.
Qed.

(** ** Merging a poll response *)

Section Merge.
Import Chat.

Lemma mergeMessages_spec (received prev : list Message.t) :
  mergeMessages received prev =
    prev ++ filter (λ m, Message.id m ∉ ids prev) received.
Proof.
  unfold mergeMessages.
  rewrite (list_filter_iff _ (λ m, Message.id m ∉ ids prev)).
  2: { intros m. unfold ids. by rewrite elem_of_list_to_set. }
  case_bool_decide as Hlen; [done|].
  destruct (filter _ received); simpl in *; [by rewrite app_nil_r | lia].
Qed.

Lemma mergeMessages_NoDup (received prev : list Message.t) :
  NoDup (ids prev) → NoDup (ids received) →
  NoDup (ids (mergeMessages received prev)).
Proof.
  intros Hprev Hrec. rewrite mergeMessages_spec. unfold ids.
  rewrite fmap_app. apply NoDup_app. split; [done|]. split.
  - intros x Hx [m [-> [Hm _]%list_elem_of_filter]]%list_elem_of_fmap. done.
  - eapply sublist_NoDup; [exact Hrec|]. apply fmap_sublist, sublist_filter.
Qed.

End Merge.

(** C5: when a poll response is merged, the messages on display stay as
    they are, in their order, and exactly those received messages whose
    id is not on display are appended, in the order received; so no id
    that was on display gets a second entry, and ids that were pairwise
    distinct stay so when the response does not repeat an id. *)
Theorem poll_merge_appends_unseen (st st' : Chat.State) (i : nat)
    (response : api.PollResponse) :
  Chat.step st (Chat.PollSettled i (Some response)) = Some st' →
  let received := default [] (api.messages response) in
  ∃ added,
    Chat.messages st' = Chat.messages st ++ added
    ∧ added = filter (λ m, Message.id m ∉ ids (Chat.messages st)) received
    ∧ (∀ m, m ∈ added → Message.id m ∉ ids (Chat.messages st))
    ∧ (NoDup (ids (Chat.messages st)) → NoDup (ids received) →
       NoDup (ids (Chat.messages st'))).
Proof.
  intros Hstep received.
  exists (filter (λ m, Message.id m ∉ ids (Chat.messages st)) received).
  assert (Hmsgs : Chat.messages st' =
                  Chat.mergeMessages received (Chat.messages st)).
  { subst received. step_cases Hstep; reflect_tests; try lia.
    all: try done.
    all: rewrite mergeMessages_spec.
    all: try (destruct l; simpl in *; [|lia]).
    all: by rewrite filter_nil, app_nil_r. }
  split; [by rewrite Hmsgs, mergeMessages_spec|]. split; [done|]. split.
  - by intros m [Hm _]%list_elem_of_filter.
  - rewrite Hmsgs. apply mergeMessages_NoDup.
Qed.

Lemma poll_merge_appends_unseen_witness :
  let a := Scenario.note "01" "iPhone" "hello" in
  let b := Scenario.note "02" "Mac" "hi" in
  let st := Scenario.after Scenario.polling
              [Chat.PollSettled 0 (Scenario.fulfilled [a] "2024-01-01T00:00:09.000Z");
               Chat.TimerFired 2] in
  let response := api.mkPollResponse (Some [a; b]) (JS.lit "2024-01-01T00:00:12.000Z") in
  let st' := Scenario.after st [Chat.PollSettled 0 (Some response)] in
  Chat.step st (Chat.PollSettled 0 (Some response)) = Some st'
  ∧ Chat.messages st = [a] ∧ Chat.messages st' = [a; b].
Proof.
  intros a b st response st'.
  assert (Hstep : Chat.step st (Chat.PollSettled 0 (Some response)) = Some st')
    by (vm_compute; reflexivity).
  split; [exact Hstep|]. split; [vm_compute; reflexivity|].
  destruct (poll_merge_appends_unseen st st' 0 response Hstep)
    as (added & -> & -> & _).
  vm_compute. reflexivity.
Defined.

(** ** Requests *)

(** C6: [handleSendMessage] posts the JSON object [{content, sender,
    type}] to /api/messages exactly when the type is "text"; for an image
    or file message that comes with a file it posts a multipart form with
    the two fields [file] and [sender] to /api/upload; without a text
    type and without a file it sends nothing.  The sender is the
    [deviceName] of the render the handler belongs to. *)
Theorem send_paths (st : Chat.State) (c : SendCall) :
  let st' := Chat.handleSendMessage c st in
  match call_type c, call_file c with
  | text, _ =>
      ∃ data,
        Chat.sent st' =
          Chat.sent st ++
            [api.mkRequest api.POST (JS.lit "/api/messages") (api.JsonBody data) []]
        ∧ SendMessageRequest.fields data =
            [(JS.lit "content", call_content c);
             (JS.lit "sender", Chat.Rendered.deviceName (Chat.rendered st));
             (JS.lit "type", JS.lit "text")]
  | (image | file), Some f =>
      Chat.sent st' =
        Chat.sent st ++
          [api.mkRequest api.POST (JS.lit "/api/upload")
             (api.FormData [(JS.lit "file", api.FormFile f);
                            (JS.lit "sender",
                             api.FormString (Chat.Rendered.deviceName (Chat.rendered st)))])
             [(JS.lit "Content-Type", JS.lit "multipart/form-data")]]
  | (image | file), None => Chat.sent st' = Chat.sent st
  end.
Proof.
  unfold Chat.handleSendMessage, Chat.sendRequest.
  destruct c as [content [] [f|]]; simpl.
  all: try done.
  all: eexists; split; [reflexivity|]; by rewrite ?H.
Qed.

Section Encode.
Import JS.

Lemma unreserved_ascii (c : N) : isUnreserved c = true → (c < 128)%N.
Proof.
  unfold isUnreserved, isAlpha, isDigit, isMark.
  rewrite !orb_true_iff, !andb_true_iff, !N.leb_le, bool_decide_eq_true.
  set_unfold. lia.
Qed.

Lemma unreserved_not_surrogate (c : N) :
  isUnreserved c = true →
  isHighSurrogate c = false ∧ isLowSurrogate c = false.
Proof.
  intros H%unreserved_ascii. unfold isHighSurrogate, isLowSurrogate.
  split; apply andb_false_iff; left; apply N.leb_gt; lia.
Qed.

Lemma encodeURIComponent_defined (s : jsstring) :
  is_Some (encodeURIComponent s) ↔ wellFormed s = true.
Proof.
  enough (H : (is_Some (encodeURIComponent s) ↔ wellFormed s = true)
              ∧ ∀ c, is_Some (encodeURIComponent (c :: s))
                     ↔ wellFormed (c :: s) = true) by apply H.
  induction s as [|d s [IH1 IH2]].
  - split; [done|]. intros c. simpl.
    destruct (isUnreserved c) eqn:Eu.
    { destruct (unreserved_not_surrogate c Eu) as [-> ->]. done. }
    destruct (isHighSurrogate c); [by split; [intros [? [=]] | done]|].
    destruct (isLowSurrogate c); [by split; [intros [? [=]] | done]|].
    done.
  - split; [apply IH2|]. intros c.
    change (encodeURIComponent (c :: d :: s)) with
      (if isUnreserved c then (c ::.) <$> encodeURIComponent (d :: s)
       else if isHighSurrogate c then
         if isLowSurrogate d
         then (escapeCodePoint (pairCodePoint c d) ++.) <$> encodeURIComponent s
         else None
       else if isLowSurrogate c then None
       else (escapeCodePoint c ++.) <$> encodeURIComponent (d :: s)).
    change (wellFormed (c :: d :: s)) with
      (if isHighSurrogate c then isLowSurrogate d && wellFormed s
       else negb (isLowSurrogate c) && wellFormed (d :: s)).
    destruct (isUnreserved c) eqn:Eu.
    { destruct (unreserved_not_surrogate c Eu) as [-> ->].
      rewrite fmap_is_Some. apply IH2. }
    destruct (isHighSurrogate c).
    { destruct (isLowSurrogate d); simpl.
      - by rewrite fmap_is_Some.
      - by split; [intros [? [=]] | done]. }
    destruct (isLowSurrogate c); simpl.
    + by split; [intros [? [=]] | done].
    + rewrite fmap_is_Some. apply IH2.
Qed.

Lemma encodeURIComponent_unreserved (s : jsstring) :
  Forall (λ c, isUnreserved c = true) s → encodeURIComponent s = Some s.
Proof.
  induction 1 as [|c r Hc _ IH]; simpl; [done|]. by rewrite Hc, IH.
Qed.

End Encode.

(** ** The sender *)

Section Sender.
Import Chat.

Lemma getDeviceName_spec (search : api.URLSearchParams) :
  api.getDeviceName search =
    match api.get search (JS.lit "device") with
    | Some (c :: v) => c :: v
    | Some [] | None => JS.lit "Browser"
    end.
Proof.
  unfold api.getDeviceName, JS.or_else.
  by destruct (api.get search (JS.lit "device")) as [[|??]|].
Qed.

Lemma sendRequest_sender (name : jsstring) (c : SendCall) (r : api.Request) :
  sendRequest name c = Some r → request_sender r = Some name.
Proof.
  unfold sendRequest. intros H.
  repeat case_match; simplify_eq; reflexivity.
Qed.

(** What one turn of the event loop adds to the log of requests: nothing,
    a poll with the cursor, or the request of one [onSendMessage] call. *)
Lemma step_issued (st st' : State) (e : Event) :
  step st e = Some st' →
  sent st' = sent st ++ issued st st'
  ∧ (issued st st' = []
     ∨ (∃ r, api.pollMessages (lastTimestamp st) = Some r ∧ issued st st' = [r])
     ∨ (∃ c r, sendRequest (Rendered.deviceName (rendered st)) c = Some r
               ∧ issued st st' = [r])).
Proof.
  intros Hstep.
  enough (∃ new, sent st' = sent st ++ new ∧
            (new = []
             ∨ (∃ r, api.pollMessages (lastTimestamp st) = Some r ∧ new = [r])
             ∨ (∃ c r, sendRequest (Rendered.deviceName (rendered st)) c = Some r
                       ∧ new = [r])))
    as (new & Hsent & Hnew).
  { unfold issued. by rewrite Hsent, drop_app_length. }
  destruct e.
  all: step_cases Hstep.
  all: try (exists []; rewrite app_nil_r; by auto).
  all: try (eexists [_]; split; [done|]; right; left; by eauto).
  all: eexists [_]; split; [done|]; right; right; by eauto.
Qed.

End Sender.

Section DeviceName.
Import Chat.

(** The [deviceName] state is the default until [initDevice] has
    resolved, and what [getDeviceName] returned from then on; a render
    shows the default or that value. *)
Lemma deviceName_state (st : State) :
  reachable st →
  deviceName st =
    (if initDevicePending st then JS.lit "Browser"
     else api.getDeviceName (search st))
  ∧ (Rendered.deviceName (rendered st) = JS.lit "Browser"
     ∨ device_name_shown st).
Proof.
  revert st. apply reachable_ind.
  - intros search now hidden. unfold mount, poll, issue. simpl.
    case_match; simpl; auto.
  - intros st e st' [IH1 IH2] Hstep. unfold device_name_shown in *.
    destruct e.
    all: step_cases Hstep; (split; [congruence|]).
    all: try done.
    all: try (destruct (initDevicePending st); [by left | by right]).
    all: destruct IH2 as [? | [? ?]]; [by left | congruence].
Qed.

Lemma device_name_shown_stable (st st' : State) (e : Event) :
  device_name_shown st → step st e = Some st' → device_name_shown st'.
Proof.
  unfold device_name_shown. intros [Hinit Hshown] Hstep. destruct e.
  all: step_cases Hstep; try done; congruence.
Qed.

End DeviceName.

(** The sender, turn by turn: [getDeviceName] returns the value of the
    first [device] parameter of the page URL when there is one and it is
    not empty, and "Browser" otherwise.  A request carries as its sender
    the [deviceName] held by the render whose handler sends it: the value
    of [getDeviceName] once a render has followed the resolution of the
    call made on mount, the initial state "Browser" in a render before
    that. *)
Lemma device_name_sender (st st' : Chat.State) (e : Chat.Event) :
  Chat.reachable st →
  Chat.step st e = Some st' →
  api.getDeviceName (Chat.search st) =
    match api.get (Chat.search st) (JS.lit "device") with
    | Some (c :: v) => c :: v
    | Some [] | None => JS.lit "Browser"
    end
  ∧ (∀ r name, r ∈ issued st st' → request_sender r = Some name →
       name = Chat.Rendered.deviceName (Chat.rendered st)
       ∧ (device_name_shown st → name = api.getDeviceName (Chat.search st))
       ∧ (¬ device_name_shown st → name = JS.lit "Browser"))
  ∧ (device_name_shown st → device_name_shown st')
  ∧ (Chat.initDevicePending st = false → e = Chat.Render →
     device_name_shown st').
Proof.
  intros Hreach Hstep. split; [apply getDeviceName_spec|].
  destruct (deviceName_state st Hreach) as [Hcur Hview].
  split; [|split].
  - intros r name Hr Hname.
    enough (name = Chat.Rendered.deviceName (Chat.rendered st)) as ->.
    { split; [done|]. split.
      - intros [Hinit ->]. by rewrite Hcur, Hinit.
      - by destruct Hview. }
    destruct (step_issued st st' e Hstep) as (_ & [Hnew | [Hnew | Hnew]]).
    + rewrite Hnew in Hr. by apply elem_of_nil in Hr.
    + destruct Hnew as (r' & Hpoll & Hnew). rewrite Hnew in Hr.
      apply list_elem_of_singleton in Hr as ->.
      unfold api.pollMessages in Hpoll.
      destruct (JS.encodeURIComponent _); simpl in Hpoll; [|done].
      by simplify_eq.
    + destruct Hnew as (c & r' & Hsend & Hnew). rewrite Hnew in Hr.
      apply list_elem_of_singleton in Hr as ->.
      apply sendRequest_sender in Hsend. congruence.
  - intros Hshown. by eapply device_name_shown_stable.
  - intros Hinit ->. simpl in Hstep. simplify_eq. by split.
Qed.

Lemma device_name_sender_witness :
  let st := Scenario.polling in
  let e := Chat.Paste Scenario.clipboard in
  let st' := Scenario.after st [e] in
  Chat.reachable st ∧ Chat.step st e = Some st'
  ∧ issued st st' = [api.uploadFile Scenario.png (JS.lit "iPhone")]
  ∧ ∀ r name, r ∈ issued st st' → request_sender r = Some name →
      name = JS.lit "iPhone".
Proof.
  intros st e st'.
  assert (Hreach : Chat.reachable st).
  { exists Scenario.page, Scenario.now, false, Scenario.polling_run.
    vm_compute. reflexivity. }
  assert (Hstep : Chat.step st e = Some st') by (vm_compute; reflexivity).
  split; [exact Hreach|]. split; [exact Hstep|].
  split; [vm_compute; reflexivity|].
  intros r name Hr Hname.
  destruct (proj1 (proj2 (device_name_sender st st' e Hreach Hstep))
              r name Hr Hname) as [-> _].
  vm_compute. reflexivity.
Defined.

(** C8 does not hold of the code.  The page URL has ?device=iPhone and
    [getDeviceName] returns "iPhone", but the handlers of the first
    render hold the initial [deviceName] state: an image pasted before
    the render that follows the resolution of [initDevice] is uploaded
    with the sender "Browser".  Pasted after that render, the same image
    is uploaded with the sender "iPhone". *)
Theorem sender_before_device_name_shown :
  let st := Scenario.mounted in
  let e := Chat.Paste Scenario.clipboard in
  let st' := Scenario.after st [e] in
  let shown := Scenario.after st [Chat.InitDeviceResolved; Chat.Render] in
  Chat.reachable st
  ∧ api.getDeviceName (Chat.search st) = JS.lit "iPhone"
  ∧ Chat.step st e = Some st'
  ∧ issued st st' = [api.uploadFile Scenario.png (JS.lit "Browser")]
  ∧ request_sender (api.uploadFile Scenario.png (JS.lit "Browser"))
    = Some (JS.lit "Browser")
  ∧ Chat.step shown e = Some (Scenario.after shown [e])
  ∧ issued shown (Scenario.after shown [e])
    = [api.uploadFile Scenario.png (JS.lit "iPhone")].
Proof.
  split.
  { exists Scenario.page, Scenario.now, false, []. reflexivity. }
  vm_compute. by repeat split.
Qed.

(** ** Text messages *)

Section TextMessages.
Import Chat.

Lemma pollMessages_no_body (since : jsstring) (r : api.Request) :
  api.pollMessages since = Some r → api.body r = api.NoBody.
Proof.
  unfold api.pollMessages.
  destruct (JS.encodeURIComponent since); simpl; [|done]. by intros [= <-].
Qed.

Lemma handleSubmit_call (message : jsstring) (disabled : bool) :
  MessageInput.handleSubmit message disabled =
    if decide (JS.trim message ≠ [] ∧ disabled = false)
    then (Some (mkSendCall (JS.trim message) text None), [])
    else (None, message).
Proof.
  unfold MessageInput.handleSubmit.
  destruct (decide (JS.trim message ≠ [] ∧ disabled = false)) as [[Hne ->]|Hn].
  - by destruct (JS.trim message).
  - destruct (JS.trim message) eqn:E; simpl; [done|].
    destruct disabled; [done|]. by destruct Hn.
Qed.

Lemma step_text_body_ok (st st' : State) (e : Event) :
  step st e = Some st' → Forall text_body_ok (sent st) →
  Forall text_body_ok (sent st').
Proof.
  intros Hstep Hlog.
  assert (Htrim : ∀ name input, JS.trim input ≠ [] →
            text_body_ok (api.sendMessage
              (SendMessageRequest.mk (JS.trim input) name text None))).
  { intros name input Hne data [= <-]. simpl.
    split; [done|]. split; [done|]. split.
    - by apply trim_not_blank.
    - apply trim_idemp. }
  assert (Hpoll : ∀ since r, api.pollMessages since = Some r →
            Forall text_body_ok (sent st ++ [r])).
  { intros since r Hr%pollMessages_no_body.
    apply Forall_app; split; [done|]. apply Forall_singleton.
    intros data Hbody. congruence. }
  destruct e as [| | o | i o | id | h | value | | selected kind | items | i o].
  1-7, 11: by (step_cases Hstep; eauto).
  - (* Submit *)
    simpl in Hstep. rewrite handleSubmit_call in Hstep.
    case_decide as Hc; simplify_eq; simpl; [|done].
    destruct Hc as [Hne _].
    apply Forall_app; split; [done|]. apply Forall_singleton. by apply Htrim.
  - (* FileSelect *)
    destruct selected as [f|], kind; simpl in Hstep; simplify_eq; simpl;
      try done.
    all: apply Forall_app; split; [done|]; by apply Forall_singleton.
  - (* Paste *)
    simpl in Hstep. simplify_eq.
    assert (Hcall : ∀ c, MessageInput.handlePaste items = Some c →
              call_type c = image ∧ is_Some (call_file c)).
    { clear. induction items as [|it items IH]; simpl; [done|].
      intros c. repeat case_match; try apply IH. by intros [= <-]. }
    destruct (MessageInput.handlePaste items) as [c|]; simpl; [|done].
    destruct (Hcall c eq_refl) as [Hty [f Hf]].
    unfold handleSendMessage, sendRequest. simpl. rewrite Hty, Hf. simpl.
    apply Forall_app; split; [done|]. by apply Forall_singleton.
Qed.

Lemma sent_text_body_ok (st : State) :
  reachable st → Forall text_body_ok (sent st).
Proof.
  revert st. apply reachable_ind.
  - intros search now hidden. unfold mount, poll, issue. simpl.
    assert (Hget : text_body_ok api.getMessages) by (by intros data).
    destruct (api.pollMessages now) as [r|] eqn:E; simpl.
    + apply pollMessages_no_body in E.
      apply Forall_cons; split; [done|]. apply Forall_singleton.
      intros data Hbody. congruence.
    + by apply Forall_singleton.
  - intros st e st' IH Hstep. by eapply step_text_body_ok.
Qed.

End TextMessages.

(** C9: a submit sends a text message only when the trimmed input is not
    empty and the input is not disabled, and what it sends is the trimmed
    input; so every text message the client has sent has a content that is
    neither empty nor white space only. *)
Theorem submit_sends_trimmed_text (st : Chat.State) :
  Chat.reachable st →
  (∀ st', Chat.step st Chat.Submit = Some st' →
     let view := Chat.rendered st in
     let content := JS.trim (Chat.Rendered.message view) in
     issued st st' =
       if decide (content ≠ [] ∧ Chat.Rendered.disabled view = false)
       then [api.sendMessage
               (SendMessageRequest.mk content (Chat.Rendered.deviceName view)
                  text None)]
       else [])
  ∧ ∀ r data, r ∈ Chat.sent st → api.body r = api.JsonBody data →
      SendMessageRequest.type data = text
      ∧ SendMessageRequest.content data ≠ []
      ∧ ¬ JS.blank (SendMessageRequest.content data).
Proof.
  intros Hreach. split.
  - intros st' Hstep view content.
    unfold issued. simpl in Hstep. rewrite handleSubmit_call in Hstep.
    fold view content in Hstep.
    destruct (decide (content ≠ [] ∧ Chat.Rendered.disabled view = false));
      simplify_eq; simpl.
    + by rewrite drop_app_length.
    + by rewrite drop_all.
  - intros r data Hr Hbody.
    pose proof (sent_text_body_ok st Hreach) as Hlog.
    rewrite Forall_forall in Hlog.
    destruct (Hlog r Hr data Hbody) as (? & ? & ? & _). done.
Qed.

Lemma submit_sends_trimmed_text_witness :
  let typed := [Chat.InputChange (JS.lit "  hello there "); Chat.Render] in
  let st := Scenario.after Scenario.polling typed in
  let st' := Scenario.after st [Chat.Submit] in
  Chat.reachable st ∧ Chat.step st Chat.Submit = Some st'
  ∧ issued st st' =
      [api.sendMessage
         (SendMessageRequest.mk (JS.lit "hello there") (JS.lit "iPhone") text None)].
Proof.
  intros typed st st'.
  assert (Hreach : Chat.reachable st).
  { exists Scenario.page, Scenario.now, false, (Scenario.polling_run ++ typed).
    vm_compute. reflexivity. }
  assert (Hstep : Chat.step st Chat.Submit = Some st') by (vm_compute; reflexivity).
  split; [exact Hreach|]. split; [exact Hstep|].
  rewrite (proj1 (submit_sends_trimmed_text st Hreach) st' Hstep).
  vm_compute. reflexivity.
Defined.

(** ** Paste *)

Section Paste.
Import JS.

Lemma startsWith_prefix (s p : jsstring) :
  startsWith s p = true ↔ ∃ post, s = p ++ post.
Proof.
  revert s. induction p as [|a p IH]; intros s.
  - destruct s; simpl; (split; [eauto | done]).
  - destruct s as [|b s]; simpl.
    + split; [done | by intros [post [=]]].
    + rewrite andb_true_iff, N.eqb_eq, IH. split.
      * intros [-> [post ->]]. eauto.
      * intros [post [= -> ->]]. eauto.
Qed.

Lemma indexOfFrom_contains (s needle : jsstring) (i : Z) :
  (0 <= i)%Z →
  indexOfFrom s needle i ≠ (-1)%Z ↔ ∃ pre post, s = pre ++ needle ++ post.
Proof.
  revert i. induction s as [|c r IH]; intros i Hi.
  - change (indexOfFrom [] needle i)
      with (if startsWith [] needle then i else (-1)%Z).
    destruct (startsWith [] needle) eqn:E.
    + apply startsWith_prefix in E as [post E].
      split; [intros _; by exists [], post | intros _; lia].
    + split; [done|]. intros (pre & post & Hs).
      destruct pre; [|done]. simpl in Hs.
      assert (startsWith [] needle = true) by (apply startsWith_prefix; eauto).
      congruence.
  - change (indexOfFrom (c :: r) needle i)
      with (if startsWith (c :: r) needle then i
            else indexOfFrom r needle (i + 1)%Z).
    destruct (startsWith (c :: r) needle) eqn:E.
    + apply startsWith_prefix in E as [post E].
      split; [intros _; by exists [], post | intros _; lia].
    + rewrite IH by lia. split.
      * intros (pre & post & ->). by exists (c :: pre), post.
      * intros (pre & post & Hs). destruct pre as [|c' pre].
        -- assert (startsWith (c :: r) needle = true)
             by (apply startsWith_prefix; eauto).
           congruence.
        -- simplify_eq/=. eauto.
Qed.

Lemma isImageItem_contains (item : DataTransferItem.t) :
  isImageItem item ↔
  ∃ pre post, DataTransferItem.type item = pre ++ lit "image" ++ post.
Proof. unfold isImageItem, indexOf. by apply indexOfFrom_contains. Qed.

(** [handlePaste] stops at the first image item that yields a file. *)
Lemma handlePaste_first (items : list DataTransferItem.t) :
  let usable item := isImageItem item ∧ is_Some (DataTransferItem.getAsFile item) in
  (∃ before item f after,
      items = before ++ item :: after
      ∧ Forall (λ it, ¬ usable it) before
      ∧ isImageItem item ∧ DataTransferItem.getAsFile item = Some f
      ∧ MessageInput.handlePaste items = Some (mkSendCall [] image (Some f)))
  ∨ (Forall (λ it, ¬ usable it) items ∧ MessageInput.handlePaste items = None).
Proof.
  intros usable. induction items as [|it items IH]; simpl.
  - right. by split.
  - assert (Hskip : ¬ usable it →
      (∃ before item f after,
          it :: items = before ++ item :: after
          ∧ Forall (λ it, ¬ usable it) before
          ∧ isImageItem item ∧ DataTransferItem.getAsFile item = Some f
          ∧ MessageInput.handlePaste items = Some (mkSendCall [] image (Some f)))
      ∨ (Forall (λ it, ¬ usable it) (it :: items)
         ∧ MessageInput.handlePaste items = None)).
    { intros Hno. destruct IH as [(before & item & f & after & -> & ? & ? & ? & ?)|[??]].
      - left. exists (it :: before), item, f, after. by repeat split; auto.
      - right. by split; [constructor|]. }
    case_bool_decide as Himg.
    + destruct (DataTransferItem.getAsFile it) as [f|] eqn:Ef.
      * left. exists [], it, f, items. by repeat split.
      * apply Hskip. unfold usable. rewrite Ef. by intros [_ [? [=]]].
    + apply Hskip. unfold usable. by intros [? _].
Qed.

End Paste.

(** C10: a paste triggers at most one upload: the first clipboard item
    whose MIME type contains "image" and that yields a file is handed to
    [onSendMessage] as an image message with empty content, and uploaded;
    the items before it and after it have no effect, and a clipboard
    without such an item sends nothing. *)
Theorem paste_uploads_first_image (st st' : Chat.State)
    (items : list DataTransferItem.t) :
  Chat.step st (Chat.Paste items) = Some st' →
  let contains_image item :=
    ∃ pre post, DataTransferItem.type item = pre ++ JS.lit "image" ++ post in
  let usable item :=
    contains_image item ∧ is_Some (DataTransferItem.getAsFile item) in
  ((∃ before item f after,
       items = before ++ item :: after
       ∧ Forall (λ it, ¬ usable it) before
       ∧ contains_image item ∧ DataTransferItem.getAsFile item = Some f
       ∧ MessageInput.handlePaste items = Some (mkSendCall [] image (Some f))
       ∧ issued st st' =
           [api.uploadFile f (Chat.Rendered.deviceName (Chat.rendered st))])
   ∨ (Forall (λ it, ¬ usable it) items
      ∧ MessageInput.handlePaste items = None
      ∧ issued st st' = []))
  ∧ length (issued st st') ≤ 1.
Proof.
  intros Hstep contains_image usable.
  assert (Hiff : ∀ l, Forall (λ it, ¬ (isImageItem it ∧
                        is_Some (DataTransferItem.getAsFile it))) l →
                      Forall (λ it, ¬ usable it) l).
  { intros l Hl. eapply Forall_impl; [exact Hl|]. intros it Hno [Himg Hf].
    apply Hno. split; [by apply isImageItem_contains | done]. }
  simpl in Hstep. simplify_eq. unfold issued.
  destruct (handlePaste_first items)
    as [(before & item & f & after & Hitems & Hbefore & Himg & Hf & Hcall)
       | [Hnone Hcall]].
  - rewrite Hcall. simpl. rewrite drop_app_length. split; [|simpl; lia].
    left. exists before, item, f, after.
    repeat split; auto. by apply isImageItem_contains.
  - rewrite Hcall. simpl. rewrite drop_all. split; [|simpl; lia].
    right. auto.
Qed.

Lemma paste_uploads_first_image_witness :
  let st := Scenario.polling in
  let st' := Scenario.after st [Chat.Paste Scenario.clipboard] in
  Chat.step st (Chat.Paste Scenario.clipboard) = Some st'
  ∧ issued st st' = [api.uploadFile Scenario.png (JS.lit "iPhone")]
  ∧ length (issued st st') ≤ 1.
Proof.
  intros st st'.
  assert (Hstep : Chat.step st (Chat.Paste Scenario.clipboard) = Some st')
    by (vm_compute; reflexivity).
  split; [exact Hstep|]. split; [vm_compute; reflexivity|].
  apply (paste_uploads_first_image st st' Scenario.clipboard Hstep).
Defined.

(** ** Visibility *)

Section Visibility.
Import Chat.

(** Hiding the document deactivates the loop and cancels the timer that
    [pollInterval] names; no other timer is touched. *)
Lemma hidden_cancels_tracked_timer (st st' : State) :
  step st (VisibilityChange true) = Some st' →
  isActive st' = false ∧ pollInterval st' = None
  ∧ timers st' =
      match pollInterval st with
      | Some id => filter (λ t, t.1 ≠ id) (timers st)
      | None => timers st
      end.
Proof. intros Hstep. by step_cases Hstep. Qed.

Lemma sendRequest_not_poll (name : jsstring) (c : SendCall) (r : api.Request) :
  sendRequest name c = Some r → isPollRequest r = false.
Proof.
  unfold sendRequest. intros H. by repeat case_match; simplify_eq.
Qed.

(** While the loop is inactive, no event other than the document becoming
    visible starts a poll or wakes the loop up. *)
Lemma inactive_step (st st' : State) (e : Event) :
  isActive st = false → e ≠ VisibilityChange false →
  step st e = Some st' →
  isActive st' = false
  ∧ filter (λ r, isPollRequest r = true) (sent st') =
      filter (λ r, isPollRequest r = true) (sent st).
Proof.
  intros Hoff Hne Hstep.
  assert (Hsend : ∀ c r,
            sendRequest (Rendered.deviceName (rendered st)) c = Some r →
            filter (λ r, isPollRequest r = true) (sent st ++ [r]) =
              filter (λ r, isPollRequest r = true) (sent st)).
  { intros c r Hr%sendRequest_not_poll.
    rewrite filter_app, filter_cons_False, filter_nil, app_nil_r; [done|].
    by rewrite Hr. }
  destruct e as [| | o | i o | id | [] | value | | selected kind | items | i o];
    try done.
  all: step_cases Hstep; reflect_tests; try congruence; eauto.
Qed.

Lemma inactive_run (st st' : State) (evs : list Event) :
  isActive st = false → VisibilityChange false ∉ evs →
  run st evs = Some st' →
  isActive st' = false
  ∧ filter (λ r, isPollRequest r = true) (sent st') =
      filter (λ r, isPollRequest r = true) (sent st).
Proof.
  revert st. induction evs as [|e evs IH]; intros st Hoff Hno Hrun; simpl in *.
  - by simplify_eq.
  - apply not_elem_of_cons in Hno as [Hne Hno].
    destruct (step st e) as [st1|] eqn:Hstep; [|done].
    destruct (inactive_step st st1 e Hoff (not_eq_sym Hne) Hstep) as [Hoff1 Hsent1].
    destruct (IH st1 Hoff1 Hno Hrun) as [? ?]. split; [done | congruence].
Qed.

(** The document has become hidden: until it becomes visible again, no
    poll request is issued. *)
Lemma hidden_stops_polling (st st1 st' : State) (evs : list Event) :
  step st (VisibilityChange true) = Some st1 →
  VisibilityChange false ∉ evs →
  run st1 evs = Some st' →
  filter (λ r, isPollRequest r = true) (sent st') =
    filter (λ r, isPollRequest r = true) (sent st).
Proof.
  intros Hhide Hno Hrun.
  destruct (hidden_cancels_tracked_timer st st1 Hhide) as (Hoff & _ & _).
  destruct (inactive_run st1 st' evs Hoff Hno Hrun) as [_ ->].
  by step_cases Hhide.
Qed.

(** X17: when the document becomes visible while the loop is suspended,
    the loop is active again, the interval is back at 3000 ms, and [poll]
    is called at once with the cursor as it stands; the request goes out
    in the same turn. *)
Lemma visible_resumes (st st' : State) :
  isActive st = false →
  step st (VisibilityChange false) = Some st' →
  isActive st' = true
  ∧ currentPollInterval st' = 3000%Q
  ∧ polls st' = polls st ++ [api.pollMessages (lastTimestamp st)]
  ∧ issued st st' = option_list (api.pollMessages (lastTimestamp st)).
Proof.
  intros Hoff Hstep. unfold issued.
  step_cases Hstep; reflect_tests; try congruence.
  - by rewrite drop_app_length.
  - by rewrite drop_all.
Qed.

End Visibility.

(** C3 does not hold of the code.  When the document is hidden and shown
    again while a poll is in flight, two polls are under way, each sets a
    timer when it completes, and [pollInterval] names only the later one:
    hiding the document then cancels timer 2 and leaves timer 1 pending.
    If the document is shown again before timer 1 fires, two polling
    loops run side by side. *)
Theorem hidden_leaves_poll_timer_pending :
  let st := Scenario.overlapping in
  let st' := Scenario.after st [Chat.VisibilityChange true] in
  let st'' := Scenario.after st' [Chat.VisibilityChange false; Chat.TimerFired 1] in
  Chat.reachable st
  ∧ (Chat.timers st).*1 = [1; 2] ∧ Chat.pollInterval st = Some 2
  ∧ Chat.step st (Chat.VisibilityChange true) = Some st'
  ∧ Chat.hidden st' = true ∧ Chat.isActive st' = false
  ∧ (Chat.timers st').*1 = [1]
  ∧ Chat.run st' [Chat.VisibilityChange false; Chat.TimerFired 1] = Some st''
  ∧ length (Chat.polls st'') = 2.
Proof.
  split.
  { exists Scenario.page, Scenario.now, false, Scenario.overlapping_run.
    vm_compute. reflexivity. }
  vm_compute. by repeat split.
Qed.


(** * Further properties of the client *)

(** ** The polling loop *)

Section Loop.
Import Chat.

Lemma reachable_interval_ok (st : State) :
  reachable st → interval_ok (currentPollInterval st).
Proof.
  intros Hreach.
  enough (interval_ok (currentPollInterval st) ∧
          Forall (λ t, interval_ok t.2) (timers st)) as [? _] by done.
  revert st Hreach. apply reachable_ind.
  - intros search now hidden. unfold mount, poll, issue. simpl.
    case_match; simpl; (split; [apply initial_ok | constructor]).
  - intros st e st' IH Hstep. by eapply step_interval_ok.
Qed.

End Loop.

(** X1: while the loop is active it is never idle: a poll request is in
    flight or a timer for the next poll is pending. *)
Theorem active_loop_never_stalls (st : Chat.State) :
  Chat.reachable st → Chat.isActive st = true →
  Chat.polls st ≠ [] ∨ Chat.timers st ≠ [].
Proof.
  revert st.
  apply (reachable_ind (λ st, Chat.isActive st = true →
                              Chat.polls st ≠ [] ∨ Chat.timers st ≠ [])).
  - intros search now hidden _. left. unfold Chat.mount, Chat.poll. simpl.
    by destruct (api.pollMessages now).
  - intros st e st' IH Hstep Hactive. destruct e.
    all: step_cases Hstep; reflect_tests; try congruence; auto.
    all: try (left; by destruct (Chat.polls st)).
    all: try (right; by destruct (Chat.timers st)).
    all: try (left; by destruct (filter _ _)).
    all: try (left; by destruct (delete _ _)).
    all: try (right; by destruct (filter _ _)).
Qed.

Lemma active_loop_never_stalls_witness :
  Chat.reachable Scenario.polling ∧ Chat.isActive Scenario.polling = true
  ∧ (Chat.polls Scenario.polling ≠ [] ∨ Chat.timers Scenario.polling ≠ []).
Proof.
  assert (Hreach : Chat.reachable Scenario.polling).
  { exists Scenario.page, Scenario.now, false, Scenario.polling_run.
    vm_compute. reflexivity. }
  assert (Hactive : Chat.isActive Scenario.polling = true)
    by (vm_compute; reflexivity).
  split; [exact Hreach|]. split; [exact Hactive|].
  apply (active_loop_never_stalls _ Hreach Hactive).
Defined.

Section SingleLoop.
Import Chat.

Lemma single_step (st st' : State) (e : Event) :
  single st →
  (e = VisibilityChange false → isActive st = false → polls st = []) →
  step st e = Some st' → single st'.
Proof.
  unfold single. intros (Hlen & Htracked & Hoff) Hcalm Hstep.
  assert (Hshape : (polls st = [] ∧ timers st = [])
                   ∨ (polls st = [] ∧ ∃ d id, timers st = [(id, d)]
                      ∧ pollInterval st = Some id ∧ isActive st = true)
                   ∨ (∃ p, polls st = [p]) ∧ timers st = []).
  { destruct (polls st) as [|p [|??]], (timers st) as [|[id d] [|??]];
      simpl in Hlen; try lia; eauto.
    right. left. split; [done|]. exists d, id. split; [done|].
    rewrite Forall_singleton in Htracked. split; [done|].
    destruct (isActive st); [done|]. by specialize (Hoff eq_refl). }
  clear Hlen Htracked Hoff.
  destruct Hshape as [[Hp Ht] | [(Hp & d & id & Ht & Hid & Hact) | [[p Hp] Ht]]].
  all: destruct e as [| | o | i o | id' | [] | value | | sel kind | items | i o].
  all: step_cases Hstep; reflect_tests;
    rewrite ?Hp, ?Ht in *; simpl in *; simplify_eq.
  all: repeat case_decide; simpl; simplify_eq.
  all: try (destruct i; simpl in *; simplify_eq).
  all: repeat split; simpl; try lia; try congruence; try done.
  all: try (by repeat constructor).
  all: try (match goal with H : _ ∈ [_] |- _ =>
                   apply list_elem_of_singleton in H as -> end;
            rewrite filter_cons_False, filter_nil by (simpl; tauto);
            simpl; by (lia || constructor)).
  all: try (match goal with H : _ ∈ [] |- _ => by apply elem_of_nil in H end).
  all: try (rewrite filter_cons_False, filter_nil by (simpl; tauto);
            simpl; by (lia || constructor)).
  all: exfalso; by specialize (Hcalm eq_refl H).
Qed.

(** X2: as long as the document is shown again only when no poll is in
    flight, there is a single polling loop: at most one poll is in flight
    or one timer pending, never both, and hiding the document then cancels
    every pending poll timer. *)
Theorem calm_run_single_loop (search : api.URLSearchParams) (now : list N)
    (hidden : bool) (evs : list Event) (st : State) :
  calm (mount search now hidden) evs →
  run (mount search now hidden) evs = Some st →
  length (polls st) + length (timers st) ≤ 1
  ∧ ∀ st', step st (VisibilityChange true) = Some st' → timers st' = [].
Proof.
  intros Hcalm Hrun.
  assert (Hsingle : single st).
  { assert (H0 : single (mount search now hidden)).
    { unfold single, mount, poll, issue. simpl.
      by destruct (api.pollMessages now). }
    revert Hcalm Hrun H0. generalize (mount search now hidden).
    induction evs as [|e evs IH]; simpl; intros st0 Hcalm Hrun H0.
    - by simplify_eq.
    - destruct Hcalm as [He Hcalm].
      destruct (step st0 e) as [st1|] eqn:Hstep; [|done].
      eapply IH; eauto using single_step. }
  split; [apply Hsingle|].
  intros st' Hstep.
  assert (Hcalm' : VisibilityChange true = VisibilityChange false →
                   isActive st = false → polls st = []) by done.
  destruct (single_step st st' _ Hsingle Hcalm' Hstep) as (_ & _ & Hoff).
  apply Hoff. by step_cases Hstep.
Qed.

Lemma calm_run_single_loop_witness :
  let evs := Scenario.polling_run ++
               [PollSettled 0 (Scenario.fulfilled [] "2024-01-01T00:00:09.000Z");
                VisibilityChange true; VisibilityChange false] in
  calm Scenario.mounted evs
  ∧ run Scenario.mounted evs = Some (Scenario.after Scenario.mounted evs)
  ∧ length (polls (Scenario.after Scenario.mounted evs))
    + length (timers (Scenario.after Scenario.mounted evs)) ≤ 1.
Proof.
  intros evs.
  assert (Hcalm : calm Scenario.mounted evs).
  { vm_compute. repeat split; intros; discriminate || done. }
  assert (Hrun : run Scenario.mounted evs = Some (Scenario.after Scenario.mounted evs))
    by (vm_compute; reflexivity).
  split; [exact Hcalm|]. split; [exact Hrun|].
  apply (calm_run_single_loop Scenario.page Scenario.now false evs _ Hcalm Hrun).
Defined.


End SingleLoop.

Section Suspended.
Import Chat.

(** While the loop is inactive, no event other than the document becoming
    visible sets a timer. *)
Lemma inactive_step_timers (st st' : State) (e : Event) :
  isActive st = false → e ≠ VisibilityChange false →
  step st e = Some st' →
  nextTimerId st' = nextTimerId st
  ∧ (pollInterval st = None → pollInterval st' = None)
  ∧ timers st' ⊆ timers st.
Proof.
  intros Hoff Hne Hstep.
  pose proof (list_subseteq_filter (λ t : nat * Q, t.1 ≠ 0) (timers st)).
  destruct e as [| | o | i o | id | [] | value | | selected kind | items | i o];
    try done.
  all: step_cases Hstep; reflect_tests; try congruence.
  all: repeat split; try done; try congruence.
  all: apply list_subseteq_filter.
Qed.

Lemma inactive_run_timers (st st' : State) (evs : list Event) :
  isActive st = false → VisibilityChange false ∉ evs →
  run st evs = Some st' →
  isActive st' = false
  ∧ poll_requests st' = poll_requests st
  ∧ nextTimerId st' = nextTimerId st
  ∧ (pollInterval st = None → pollInterval st' = None)
  ∧ timers st' ⊆ timers st.
Proof.
  revert st. induction evs as [|e evs IH]; intros st Hoff Hno Hrun; simpl in *.
  - by simplify_eq.
  - apply not_elem_of_cons in Hno as [Hne Hno].
    destruct (step st e) as [st1|] eqn:Hstep; [|done].
    destruct (inactive_step st st1 e Hoff (not_eq_sym Hne) Hstep) as [Hoff1 Hsent1].
    destruct (inactive_step_timers st st1 e Hoff (not_eq_sym Hne) Hstep)
      as (Hnext1 & Htracked1 & Htimers1).
    destruct (IH st1 Hoff1 Hno Hrun) as (? & Hsent & Hnext & Htracked & Htimers).
    unfold poll_requests in *.
    repeat split; try done; try congruence; auto.
    by etrans.
Qed.

End Suspended.

(** X3: once the document has become hidden, and until it becomes
    visible again, the loop stays suspended whatever else happens (polls
    in flight that settle, timers left over that fire, user input): no
    poll request is issued, no timer is set, and [pollInterval] stays
    null. *)
Theorem hidden_suspends_loop (st st1 st' : Chat.State)
    (evs : list Chat.Event) :
  Chat.step st (Chat.VisibilityChange true) = Some st1 →
  Chat.VisibilityChange false ∉ evs →
  Chat.run st1 evs = Some st' →
  Chat.isActive st' = false
  ∧ poll_requests st' = poll_requests st
  ∧ Chat.nextTimerId st' = Chat.nextTimerId st
  ∧ Chat.pollInterval st' = None
  ∧ Chat.timers st' ⊆ Chat.timers st.
Proof.
  intros Hhide Hno Hrun.
  destruct (hidden_cancels_tracked_timer st st1 Hhide) as (Hoff & Hnull & Htim).
  destruct (inactive_run_timers st1 st' evs Hoff Hno Hrun)
    as (? & Hsent & Hnext & Htracked & Htimers).
  split; [done|]. split; [|split; [|split]].
  - rewrite Hsent. unfold poll_requests. by step_cases Hhide.
  - rewrite Hnext. by step_cases Hhide.
  - auto.
  - etrans; [exact Htimers|]. rewrite Htim.
    destruct (Chat.pollInterval st); [apply list_subseteq_filter | done].
Qed.

Lemma hidden_suspends_loop_witness :
  let st := Scenario.overlapping in
  let st1 := Scenario.after st [Chat.VisibilityChange true] in
  let evs := [Chat.TimerFired 1; Chat.InputChange (JS.lit "x")] in
  let st' := Scenario.after st1 evs in
  Chat.step st (Chat.VisibilityChange true) = Some st1
  ∧ (Chat.VisibilityChange false ∉ evs)
  ∧ Chat.run st1 evs = Some st'
  ∧ poll_requests st' = poll_requests st.
Proof.
  intros st st1 evs st'.
  assert (Hhide : Chat.step st (Chat.VisibilityChange true) = Some st1)
    by (vm_compute; reflexivity).
  assert (Hno : Chat.VisibilityChange false ∉ evs).
  { intros Hin. repeat (apply elem_of_cons in Hin as [Hin | Hin]; [done|]).
    by apply elem_of_nil in Hin. }
  assert (Hrun : Chat.run st1 evs = Some st') by (vm_compute; reflexivity).
  split; [exact Hhide|]. split; [exact Hno|]. split; [exact Hrun|].
  apply (hidden_suspends_loop st st1 st' evs Hhide Hno Hrun).
Defined.

(** X4: after the cleanup of the polling effect (unmount), polling has
    stopped for good: whatever continuations and timers still run, no
    poll request is issued and no timer is set, also when two loops were
    running. *)
Theorem unmount_stops_polling (st st' : Chat.State) (evs : list Chat.Event) :
  Forall runs_unmounted evs →
  Chat.run (Chat.cleanup st) evs = Some st' →
  Chat.isActive st' = false
  ∧ poll_requests st' = poll_requests st
  ∧ Chat.nextTimerId st' = Chat.nextTimerId st
  ∧ Chat.timers st' ⊆ Chat.timers st.
Proof.
  intros Hevs Hrun.
  assert (Hno : Chat.VisibilityChange false ∉ evs).
  { intros Hin. rewrite Forall_forall in Hevs. by apply Hevs in Hin. }
  assert (Hoff : Chat.isActive (Chat.cleanup st) = false).
  { unfold Chat.cleanup. by case_match. }
  destruct (inactive_run_timers _ st' evs Hoff Hno Hrun)
    as (? & Hsent & Hnext & _ & Htimers).
  split; [done|]. split; [|split].
  - rewrite Hsent. unfold poll_requests, Chat.cleanup. by case_match.
  - rewrite Hnext. unfold Chat.cleanup. by case_match.
  - etrans; [exact Htimers|]. unfold Chat.cleanup, Chat.clearTimeout.
    case_match; simpl; [apply list_subseteq_filter | done].
Qed.

Lemma unmount_stops_polling_witness :
  let evs := [Chat.TimerFired 1; Chat.InitDeviceResolved] in
  let st' := Scenario.after (Chat.cleanup Scenario.overlapping) evs in
  Forall runs_unmounted evs
  ∧ Chat.run (Chat.cleanup Scenario.overlapping) evs = Some st'
  ∧ Chat.isActive st' = false
  ∧ poll_requests st' = poll_requests Scenario.overlapping.
Proof.
  intros evs st'.
  assert (Hevs : Forall runs_unmounted evs) by (by repeat constructor).
  assert (Hrun : Chat.run (Chat.cleanup Scenario.overlapping) evs = Some st')
    by (vm_compute; reflexivity).
  split; [exact Hevs|]. split; [exact Hrun|].
  destruct (unmount_stops_polling Scenario.overlapping st' evs Hevs Hrun)
    as (H1 & H2 & _).
  by split.
Defined.

Section Cap.
Import Chat.

Lemma reachable_run (st st' : State) (evs : list Event) :
  reachable st → run st evs = Some st' → reachable st'.
Proof.
  intros (search & now & hidden & evs0 & Hrun0) Hrun.
  exists search, now, hidden, (evs0 ++ evs). by rewrite run_app, Hrun0.
Qed.

Lemma backoff_mono (q c m : Q) :
  (0 <= c)%Q → (q <= c)%Q → (1.5 <= m)%Q →
  (Qmin (q * 1.5) 30000 <= Math.min (c * m) POLLING_CONFIG.MAX_INTERVAL)%Q.
Proof.
  unfold Math.min, POLLING_CONFIG.MAX_INTERVAL. intros Hc Hq Hm.
  apply Q.min_glb; [|apply Q.le_min_r].
  eapply Qle_trans; [apply Q.le_min_l|]. nra.
Qed.

Lemma step_idle_floor (st st' : State) (e : Event) (q : Q) :
  interval_ok (currentPollInterval st) → can_reset e = false →
  step st e = Some st' → (q <= currentPollInterval st)%Q →
  ((if backs_off e then Qmin (q * 1.5) 30000 else q)
   <= currentPollInterval st')%Q.
Proof.
  intros [Hlo Hhi] Hreset Hstep Hq.
  assert (H0 : (0 <= currentPollInterval st)%Q) by lra.
  pose proof (backoff_mono q _ POLLING_CONFIG.IDLE_MULTIPLIER H0 Hq
                ltac:(unfold POLLING_CONFIG.IDLE_MULTIPLIER; lra)) as Hidle.
  pose proof (backoff_mono q _ POLLING_CONFIG.ERROR_MULTIPLIER H0 Hq
                ltac:(unfold POLLING_CONFIG.ERROR_MULTIPLIER; lra)) as Herr.
  destruct e as [| | o | i [r|] | id | [] | value | | sel kind | items | i o];
    simpl in Hreset; try done.
  all: unfold backs_off; try rewrite Hreset; simpl.
  all: step_cases Hstep; reflect_tests; try congruence; try done.
Qed.

Lemma idle_floor_cap (k : nat) : 6 ≤ k → (idle_floor k == 30000)%Q.
Proof.
  induction 1 as [|k Hk IH].
  - vm_compute. reflexivity.
  - simpl. rewrite IH. vm_compute. reflexivity.
Qed.

Lemma run_idle_floor (evs : list Event) (st st' : State) (k : nat) :
  reachable st → Forall (λ e, can_reset e = false) evs →
  run st evs = Some st' →
  (idle_floor k <= currentPollInterval st)%Q →
  (idle_floor (k + idle_rounds evs) <= currentPollInterval st')%Q.
Proof.
  revert st k. induction evs as [|e evs IH]; simpl; intros st k Hreach Hevs Hrun Hk.
  - simplify_eq. by rewrite Nat.add_0_r.
  - apply Forall_cons in Hevs as [He Hevs].
    destruct (step st e) as [st1|] eqn:Hstep; [|done].
    pose proof (step_idle_floor st st1 e _ (reachable_interval_ok st Hreach)
                  He Hstep Hk) as Hk1.
    pose proof (reachable_step _ _ _ Hreach Hstep) as Hreach1.
    destruct (backs_off e).
    + replace (k + (1 + idle_rounds evs)) with (S k + idle_rounds evs) by lia.
      by apply (IH st1).
    + by apply (IH st1).
Qed.

End Cap.

(** X5: polls that bring no message, whether empty or failed, drive the
    interval to the cap: over a stretch of events without a response that
    carries messages and without the document being shown again, the
    interval is at least what [k] idle rounds make of the initial 3000 ms,
    and from the sixth such poll on it is 30000 ms. *)
Theorem idle_backoff_reaches_cap (st st' : Chat.State)
    (evs : list Chat.Event) :
  Chat.reachable st →
  Forall (λ e, can_reset e = false) evs →
  Chat.run st evs = Some st' →
  (idle_floor (idle_rounds evs) <= Chat.currentPollInterval st')%Q
  ∧ (6 ≤ idle_rounds evs → (Chat.currentPollInterval st' == 30000)%Q).
Proof.
  intros Hreach Hevs Hrun.
  assert (Hfloor : (idle_floor (0 + idle_rounds evs)
                    <= Chat.currentPollInterval st')%Q).
  { eapply run_idle_floor; eauto. simpl.
    by destruct (reachable_interval_ok st Hreach). }
  simpl in Hfloor. split; [done|]. intros Hsix.
  rewrite (idle_floor_cap _ Hsix) in Hfloor.
  destruct (reachable_interval_ok st' (reachable_run _ _ _ Hreach Hrun)).
  by apply Qle_antisym.
Qed.

Lemma idle_backoff_reaches_cap_witness :
  let idle i := Chat.PollSettled 0 (Scenario.fulfilled [] "2024-01-01T00:01:00.000Z") in
  let evs := [idle 1; Chat.TimerFired 2; Chat.PollSettled 0 None;
              Chat.TimerFired 3; idle 3; Chat.TimerFired 4; idle 4;
              Chat.TimerFired 5; idle 5; Chat.TimerFired 6; idle 6] in
  let st' := Scenario.after Scenario.polling evs in
  Chat.reachable Scenario.polling
  ∧ Forall (λ e, can_reset e = false) evs
  ∧ Chat.run Scenario.polling evs = Some st'
  ∧ 6 ≤ idle_rounds evs
  ∧ (Chat.currentPollInterval st' == 30000)%Q.
Proof.
  intros idle evs st'.
  assert (Hreach : Chat.reachable Scenario.polling).
  { exists Scenario.page, Scenario.now, false, Scenario.polling_run.
    vm_compute. reflexivity. }
  assert (Hevs : Forall (λ e, can_reset e = false) evs)
    by (by repeat constructor).
  assert (Hrun : Chat.run Scenario.polling evs = Some st')
    by (vm_compute; reflexivity).
  assert (Hsix : 6 ≤ idle_rounds evs) by (vm_compute; lia).
  split; [exact Hreach|]. split; [exact Hevs|]. split; [exact Hrun|].
  split; [exact Hsix|].
  apply (proj2 (idle_backoff_reaches_cap _ st' evs Hreach Hevs Hrun) Hsix).
Defined.

(** ** The cursor and the list over a run *)

(** X6: over any run, the cursor ends up as the [timestamp] of the last
    poll fulfilled in the run, in the order the responses were handled
    (not the order the requests were made), and as it was when no poll
    was fulfilled. *)
Theorem cursor_follows_last_response (st st' : Chat.State)
    (evs : list Chat.Event) :
  Chat.run st evs = Some st' →
  Chat.lastTimestamp st' = cursor_after (Chat.lastTimestamp st) evs.
Proof.
  revert st. induction evs as [|e evs IH]; simpl; intros st Hrun.
  - by simplify_eq.
  - destruct (Chat.step st e) as [st1|] eqn:Hstep; [|done].
    rewrite (IH st1 Hrun). f_equal.
    destruct e as [| | o | i [r|] | id | h | value | | sel kind | items | i o].
    all: by step_cases Hstep.
Qed.

Lemma cursor_follows_last_response_witness :
  let late := Chat.PollSettled 0 (Scenario.fulfilled [] "2024-01-01T00:00:01.000Z") in
  let evs := [Chat.VisibilityChange true; Chat.VisibilityChange false;
              Chat.PollSettled 1 (Scenario.fulfilled [] "2024-01-01T00:00:02.000Z");
              late] in
  let st' := Scenario.after Scenario.mounted evs in
  Chat.run Scenario.mounted evs = Some st'
  ∧ Chat.lastTimestamp st' = JS.lit "2024-01-01T00:00:01.000Z".
Proof.
  intros late evs st'.
  assert (Hrun : Chat.run Scenario.mounted evs = Some st')
    by (vm_compute; reflexivity).
  split; [exact Hrun|].
  rewrite (cursor_follows_last_response _ _ _ Hrun). reflexivity.
Defined.

Section Display.
Import Chat.

Lemma step_messages_grow (st st' : State) (e : Event) :
  ¬ loads e → step st e = Some st' → messages st `prefix_of` messages st'.
Proof.
  intros Hload Hstep.
  destruct e as [| | [msgs|] | i [r|] | id | h | value | | sel kind | items | i o];
    simpl in Hload; try done.
  all: step_cases Hstep; try done.
  all: try (by apply prefix_app_r).
  all: rewrite mergeMessages_spec; by apply prefix_app_r.
Qed.

Lemma step_load_settles_once (st st' : State) (e : Event) :
  loadMessagesPending st = false → step st e = Some st' →
  ¬ loads e ∧ loadMessagesPending st' = false.
Proof.
  intros Hdone Hstep.
  destruct e as [| | [msgs|] | i [r|] | id | h | value | | sel kind | items | i o].
  all: step_cases Hstep; try congruence; try (by split).
  all: split; [by intros [] | congruence].
Qed.

End Display.

Lemma run_messages_grow (st st' : Chat.State) (evs : list Chat.Event) :
  Chat.loadMessagesPending st = false →
  Chat.run st evs = Some st' →
  Chat.messages st `prefix_of` Chat.messages st'.
Proof.
  revert st. induction evs as [|e evs IH]; simpl; intros st Hdone Hrun.
  - by simplify_eq.
  - destruct (Chat.step st e) as [st1|] eqn:Hstep; [|done].
    destruct (step_load_settles_once st st1 e Hdone Hstep) as [Hload Hdone1].
    etrans; [by eapply step_messages_grow|]. by apply IH.
Qed.

(** X7: once the initial load has settled, the list on display only
    grows at its end: whatever happens next (polls, sends, renders), the
    messages on display stay, in their order, and new ones come after
    them. *)
Theorem display_is_append_only (st st' : Chat.State) (evs : list Chat.Event) :
  Chat.loadMessagesPending st = false →
  Chat.run st evs = Some st' →
  Chat.messages st `prefix_of` Chat.messages st'.
Proof. apply run_messages_grow. Qed.

Lemma display_is_append_only_witness :
  let a := Scenario.note "01" "Mac" "hi" in
  let evs := [Chat.PollSettled 0 (Scenario.fulfilled [a] "2024-01-01T00:00:09.000Z");
              Chat.Render] in
  let st' := Scenario.after Scenario.polling evs in
  Chat.loadMessagesPending Scenario.polling = false
  ∧ Chat.run Scenario.polling evs = Some st'
  ∧ Chat.messages Scenario.polling `prefix_of` Chat.messages st'.
Proof.
  intros a evs st'.
  assert (Hdone : Chat.loadMessagesPending Scenario.polling = false)
    by (vm_compute; reflexivity).
  assert (Hrun : Chat.run Scenario.polling evs = Some st')
    by (vm_compute; reflexivity).
  split; [exact Hdone|]. split; [exact Hrun|].
  apply (display_is_append_only _ _ _ Hdone Hrun).
Defined.

(** ** Sending *)

(** X8: the input is never left disabled with nothing under way: whenever
    [loading] is true, the initial load or at least one send is still
    awaited, whose settling sets it back to false. *)
Theorem loading_means_pending (st : Chat.State) :
  Chat.reachable st → Chat.loading st = true →
  Chat.loadMessagesPending st = true ∨ Chat.sends st ≠ [].
Proof.
  revert st.
  apply (reachable_ind (λ st, Chat.loading st = true →
           Chat.loadMessagesPending st = true ∨ Chat.sends st ≠ [])).
  - intros search now hidden _. left. unfold Chat.mount, Chat.poll. simpl.
    by case_match.
  - intros st e st' IH Hstep Hloading. destruct e.
    all: step_cases Hstep; try done; auto.
    all: right; by destruct (Chat.sends st).
Qed.

Lemma loading_means_pending_witness :
  let st := Scenario.after Scenario.polling [Chat.Paste Scenario.clipboard] in
  Chat.reachable st ∧ Chat.loading st = true
  ∧ (Chat.loadMessagesPending st = true ∨ Chat.sends st ≠ []).
Proof.
  intros st.
  assert (Hreach : Chat.reachable st).
  { exists Scenario.page, Scenario.now, false,
      (Scenario.polling_run ++ [Chat.Paste Scenario.clipboard]).
    vm_compute. reflexivity. }
  assert (Hloading : Chat.loading st = true) by (vm_compute; reflexivity).
  split; [exact Hreach|]. split; [exact Hloading|].
  apply (loading_means_pending st Hreach Hloading).
Defined.

(** X9: no message is sent with an empty sender: the sender of every
    request is "Browser" or a non-empty [device] parameter of the page
    URL. *)
Theorem sender_never_empty (st st' : Chat.State) (e : Chat.Event) :
  Chat.reachable st → Chat.step st e = Some st' →
  ∀ r name, r ∈ issued st st' → request_sender r = Some name →
    name ≠ []
    ∧ (name = JS.lit "Browser"
       ∨ api.get (Chat.search st) (JS.lit "device") = Some name).
Proof.
  intros Hreach Hstep r name Hr Hname.
  assert (Hshown : name = Chat.Rendered.deviceName (Chat.rendered st)).
  { destruct (step_issued st st' e Hstep) as (_ & [Hnew | [Hnew | Hnew]]).
    - rewrite Hnew in Hr. by apply elem_of_nil in Hr.
    - destruct Hnew as (r' & Hpoll%pollMessages_no_body & Hnew).
      rewrite Hnew in Hr. apply list_elem_of_singleton in Hr as ->.
      unfold request_sender in Hname. by rewrite Hpoll in Hname.
    - destruct Hnew as (c & r' & Hsend & Hnew). rewrite Hnew in Hr.
      apply list_elem_of_singleton in Hr as ->.
      apply sendRequest_sender in Hsend. congruence. }
  destruct (deviceName_state st Hreach) as [Hcur [Hview | [Hinit Hview]]].
  - rewrite Hshown, Hview. split; [done | by left].
  - rewrite Hshown, Hview, Hcur, Hinit, getDeviceName_spec.
    destruct (api.get (Chat.search st) (JS.lit "device")) as [[|c v]|];
      split; try done; auto.
Qed.

Lemma sender_never_empty_witness :
  let st := Scenario.polling in
  let e := Chat.Paste Scenario.clipboard in
  let st' := Scenario.after st [e] in
  Chat.reachable st ∧ Chat.step st e = Some st'
  ∧ ∀ r name, r ∈ issued st st' → request_sender r = Some name → name ≠ [].
Proof.
  intros st e st'.
  assert (Hreach : Chat.reachable st).
  { exists Scenario.page, Scenario.now, false, Scenario.polling_run.
    vm_compute. reflexivity. }
  assert (Hstep : Chat.step st e = Some st') by (vm_compute; reflexivity).
  split; [exact Hreach|]. split; [exact Hstep|].
  intros r name Hr Hname.
  apply (sender_never_empty st st' e Hreach Hstep r name Hr Hname).
Defined.

(** X10: the response of a send is appended to the list without a look at
    the ids on display: when a poll has delivered the same message before
    the response arrives, the message is on display twice. *)
Theorem send_response_not_deduplicated (st st' : Chat.State) (i : nat)
    (m : Message.t) :
  Chat.step st (Chat.SendSettled i (Some m)) = Some st' →
  Chat.messages st' = Chat.messages st ++ [m]
  ∧ (Message.id m ∈ ids (Chat.messages st) →
     ¬ NoDup (ids (Chat.messages st'))).
Proof.
  intros Hstep.
  assert (Hmsgs : Chat.messages st' = Chat.messages st ++ [m])
    by (by step_cases Hstep).
  split; [done|]. intros Hin Hnodup.
  rewrite Hmsgs in Hnodup. unfold ids in *. rewrite fmap_app in Hnodup.
  apply NoDup_app in Hnodup as (_ & Hdisj & _).
  apply (Hdisj _ Hin). simpl. apply list_elem_of_here.
Qed.

Lemma send_response_not_deduplicated_witness :
  let a := Scenario.note "01" "iPhone" "hello" in
  let evs := [Chat.InputChange (JS.lit "hello"); Chat.Render; Chat.Submit;
              Chat.PollSettled 0 (Scenario.fulfilled [a] "2024-01-01T00:00:09.000Z")] in
  let st := Scenario.after Scenario.polling evs in
  let st' := Scenario.after st [Chat.SendSettled 0 (Some a)] in
  Chat.reachable st
  ∧ Chat.step st (Chat.SendSettled 0 (Some a)) = Some st'
  ∧ Message.id a ∈ ids (Chat.messages st)
  ∧ Chat.messages st' = [a; a].
Proof.
  intros a evs st st'.
  assert (Hreach : Chat.reachable st).
  { exists Scenario.page, Scenario.now, false, (Scenario.polling_run ++ evs).
    vm_compute. reflexivity. }
  assert (Hstep : Chat.step st (Chat.SendSettled 0 (Some a)) = Some st')
    by (vm_compute; reflexivity).
  split; [exact Hreach|]. split; [exact Hstep|].
  split; [vm_compute; apply list_elem_of_here|].
  rewrite (proj1 (send_response_not_deduplicated st st' 0 a Hstep)).
  vm_compute. reflexivity.
Defined.

(** X11: every call of [onSendMessage] that [MessageInput] makes leads to
    a request: a text call from [handleSubmit], or a call with a file
    from [handleFileSelect] and [handlePaste]; the branch of
    [handleSendMessage] that returns without sending is never taken. *)
Theorem input_calls_always_send (name : list N) (c : SendCall) :
  (∃ message disabled message',
      MessageInput.handleSubmit message disabled = (Some c, message'))
  ∨ (∃ selected kind, MessageInput.handleFileSelect selected kind = Some c)
  ∨ (∃ items, MessageInput.handlePaste items = Some c) →
  is_Some (Chat.sendRequest name c).
Proof.
  assert (Hfile : ∀ c, call_type c ≠ text → is_Some (call_file c) →
                       is_Some (Chat.sendRequest name c)).
  { intros c' Hty [f Hf]. unfold Chat.sendRequest. rewrite Hf.
    by case_decide. }
  intros [(message & disabled & message' & H) | [(sel & kind & H) | [items H]]].
  - unfold MessageInput.handleSubmit in H. case_match; simplify_eq. by eexists.
  - destruct sel as [f|], kind; simplify_eq/=; by apply Hfile.
  - induction items as [|it items IH]; simpl in H; [done|].
    repeat case_match; simplify_eq; auto.
Qed.

Lemma input_calls_always_send_witness :
  is_Some (Chat.sendRequest (JS.lit "iPhone")
             (mkSendCall [] image (Some Scenario.png))).
Proof.
  apply (input_calls_always_send (JS.lit "iPhone")).
  right. right. exists Scenario.clipboard. vm_compute. reflexivity.
Defined.

(** X12: choosing a file uploads it whatever the state of the form: the
    request does not depend on which of the two file inputs was used nor
    on the input being disabled, and without a file nothing changes. *)
Theorem file_select_uploads (st st' : Chat.State) (selected : option File)
    (kind : FileInputKind) :
  Chat.step st (Chat.FileSelect selected kind) = Some st' →
  match selected with
  | Some f =>
      issued st st' =
        [api.uploadFile f (Chat.Rendered.deviceName (Chat.rendered st))]
      ∧ Chat.loading st' = true
  | None => st' = st
  end.
Proof.
  intros Hstep. unfold issued.
  destruct selected as [f|], kind; simpl in Hstep; simplify_eq; simpl.
  all: try done.
  all: by rewrite drop_app_length.
Qed.

Lemma file_select_uploads_witness :
  let st := Scenario.after Scenario.polling [Chat.Paste Scenario.clipboard] in
  let e := Chat.FileSelect (Some Scenario.png) from_file_input in
  let st' := Scenario.after st [e] in
  Chat.step st e = Some st'
  ∧ Chat.loading st = true
  ∧ issued st st' = [api.uploadFile Scenario.png (JS.lit "iPhone")].
Proof.
  intros st e st'.
  assert (Hstep : Chat.step st e = Some st') by (vm_compute; reflexivity).
  split; [exact Hstep|]. split; [vm_compute; reflexivity|].
  rewrite (proj1 (file_select_uploads st st' _ _ Hstep)).
  vm_compute. reflexivity.
Defined.

(** ** The content of a text message *)

Section TrimEnds.
Import JS.

Lemma trim_split (s : jsstring) :
  ∃ pre post, s = pre ++ trim s ++ post ∧ blank pre ∧ blank post.
Proof.
  destruct (trimStart_split s) as (pre & Hs & Hpre).
  destruct (trimStart_split (reverse (trimStart s))) as (tail & Ht & Htail).
  exists pre, (reverse tail). split; [|split; [done|]].
  - unfold trim, trimEnd. rewrite <- reverse_app, <- Ht, reverse_involutive.
    exact Hs.
  - unfold blank in *. by apply Forall_reverse.
Qed.

Lemma trimStart_trim (s : jsstring) : trimStart (trim s) = trim s.
Proof.
  destruct (trim s) as [|c r] eqn:E; [done|].
  destruct (trim_split s) as (pre & post & Hs & _ & _).
  destruct (trimStart_split s) as (pre' & Hs' & _).
  assert (Hhead : ∃ rest, trimStart s = c :: rest).
  { unfold trim, trimEnd in E.
    destruct (trimStart_split (reverse (trimStart s))) as (tail & Ht & _).
    apply (f_equal reverse) in Ht.
    rewrite reverse_involutive, reverse_app, E in Ht. eauto. }
  destruct Hhead as [rest Hhead].
  simpl. by rewrite (trimStart_head _ _ _ Hhead).
Qed.

Lemma trim_head (s : jsstring) (c : N) (r : jsstring) :
  trim s = c :: r → isWhiteSpace c = false.
Proof.
  intros E. eapply (trimStart_head (trim s)). by rewrite trimStart_trim.
Qed.

Lemma trim_last (s : jsstring) (d : N) :
  last (trim s) = Some d → isWhiteSpace d = false.
Proof.
  unfold trim, trimEnd.
  destruct (trimStart (reverse (trimStart s))) as [|c u] eqn:E.
  - by rewrite reverse_nil.
  - rewrite reverse_cons, last_snoc. intros [= <-].
    by eapply trimStart_head.
Qed.

End TrimEnds.

(** X13: what a submit sends is the input with the white space around it
    taken off and nothing else changed: the input is the content between
    two runs of white space, and the content begins and ends with a
    character that is not white space; the input field is then cleared. *)
Theorem submit_strips_surrounding_space (st st' : Chat.State)
    (r : api.Request) :
  Chat.step st Chat.Submit = Some st' →
  issued st st' = [r] →
  ∃ pre content post data,
    Chat.Rendered.message (Chat.rendered st) = pre ++ content ++ post
    ∧ JS.blank pre ∧ JS.blank post
    ∧ api.body r = api.JsonBody data
    ∧ SendMessageRequest.content data = content
    ∧ (∃ c, head content = Some c ∧ JS.isWhiteSpace c = false)
    ∧ (∃ d, last content = Some d ∧ JS.isWhiteSpace d = false)
    ∧ Chat.message st' = [].
Proof.
  intros Hstep Hissued. unfold issued in Hissued.
  simpl in Hstep. rewrite handleSubmit_call in Hstep.
  destruct (trim_split (Chat.Rendered.message (Chat.rendered st)))
    as (pre & post & Hsplit & Hpre & Hpost).
  case_decide as Hc; simplify_eq; simpl in *.
  2: { by rewrite drop_all in Hissued. }
  rewrite drop_app_length in Hissued. simplify_eq.
  destruct Hc as [Hne _].
  exists pre, (JS.trim (Chat.Rendered.message (Chat.rendered st))), post.
  eexists. repeat split; try done.
  - destruct (JS.trim _) as [|c rest] eqn:E; [done|].
    exists c. split; [done|]. by eapply trim_head.
  - destruct (last (JS.trim (Chat.Rendered.message (Chat.rendered st))))
      as [d|] eqn:E.
    + exists d. split; [done|]. by eapply trim_last.
    + by apply last_None in E.
Qed.

Lemma submit_strips_surrounding_space_witness :
  let typed := [Chat.InputChange (JS.lit "  hello there "); Chat.Render] in
  let st := Scenario.after Scenario.polling typed in
  let st' := Scenario.after st [Chat.Submit] in
  let r := api.sendMessage
             (SendMessageRequest.mk (JS.lit "hello there") (JS.lit "iPhone")
                text None) in
  Chat.step st Chat.Submit = Some st'
  ∧ issued st st' = [r]
  ∧ Chat.message st' = [].
Proof.
  intros typed st st' r.
  assert (Hstep : Chat.step st Chat.Submit = Some st') by (vm_compute; reflexivity).
  assert (Hissued : issued st st' = [r]) by (vm_compute; reflexivity).
  split; [exact Hstep|]. split; [exact Hissued|].
  destruct (submit_strips_surrounding_space st st' r Hstep Hissued)
    as (? & ? & ? & ? & _ & _ & _ & _ & _ & _ & _ & Hcleared).
  exact Hcleared.
Defined.

(** ** The poll URL *)

(** Linear arithmetic with division by constants made explicit. *)
Ltac ndiv := zify; Z.to_euclidean_division_equations; lia.

(** Turns the character tests in the context into arithmetic. *)
Ltac reflect_chars :=
  unfold JS.isHighSurrogate, JS.isLowSurrogate, JS.pairCodePoint in *;
  repeat match goal with
    | H : _ && _ = true |- _ => apply andb_true_iff in H as [??]
    | H : _ && _ = false |- _ => apply andb_false_iff in H
    | H : (_ <=? _)%N = true |- _ => apply N.leb_le in H
    | H : (_ <=? _)%N = false |- _ => apply N.leb_gt in H
    | H : (_ <? _)%N = true |- _ => apply N.ltb_lt in H
    | H : (_ <? _)%N = false |- _ => apply N.ltb_ge in H
    end.

Section Escape.
Import JS.

Lemma utf8_octets (cp : N) :
  (cp < 1114112)%N → Forall (λ o, (o < 256)%N) (utf8 cp).
Proof.
  intros Hcp. unfold utf8.
  repeat case_match; reflect_chars; repeat constructor; ndiv.
Qed.

Lemma hexDigit_safe (n : N) : (n < 16)%N → uriSafe (hexDigit n).
Proof.
  intros Hn. left. unfold hexDigit, isUnreserved, isAlpha, isDigit.
  destruct (n <? 10)%N eqn:E; reflect_chars.
  - assert (H : isDigit (48 + n) = true).
    { unfold isDigit. apply andb_true_iff. split; apply N.leb_le; lia. }
    unfold isDigit in H. rewrite H. by rewrite orb_true_r.
  - assert (H : ((65 <=? 55 + n) && (55 + n <=? 90))%N = true).
    { apply andb_true_iff. split; apply N.leb_le; lia. }
    by rewrite H.
Qed.

Lemma percentEscape_safe (octet : N) :
  (octet < 256)%N → Forall uriSafe (percentEscape octet).
Proof.
  intros Ho. unfold percentEscape.
  apply Forall_cons. split; [by right|].
  apply Forall_cons. split; [apply hexDigit_safe; ndiv|].
  apply Forall_singleton. apply hexDigit_safe. ndiv.
Qed.

Lemma escapeCodePoint_safe (cp : N) :
  (cp < 1114112)%N → Forall uriSafe (escapeCodePoint cp).
Proof.
  intros Hcp. unfold escapeCodePoint. apply Forall_bind.
  eapply Forall_impl; [by apply utf8_octets|].
  intros o Ho. by apply percentEscape_safe.
Qed.

(** The three ways [encodeURIComponent] consumes the head of a string. *)
Lemma encodeURIComponent_cons (c : N) (r e : jsstring) :
  encodeURIComponent (c :: r) = Some e →
  (isUnreserved c = true
   ∧ ∃ e', encodeURIComponent r = Some e' ∧ e = c :: e')
  ∨ (isUnreserved c = false ∧ isHighSurrogate c = true
     ∧ ∃ d r' e', r = d :: r' ∧ isLowSurrogate d = true
         ∧ encodeURIComponent r' = Some e'
         ∧ e = escapeCodePoint (pairCodePoint c d) ++ e')
  ∨ (isUnreserved c = false ∧ isHighSurrogate c = false
     ∧ isLowSurrogate c = false
     ∧ ∃ e', encodeURIComponent r = Some e' ∧ e = escapeCodePoint c ++ e').
Proof.
  simpl. destruct (isUnreserved c).
  - intros (e' & He' & ->)%fmap_Some. left. eauto.
  - destruct (isHighSurrogate c).
    + destruct r as [|d r']; [done|].
      destruct (isLowSurrogate d) eqn:Hd; [|done].
      intros (e' & He' & ->)%fmap_Some. right. left.
      split; [done|]. split; [done|]. by exists d, r', e'.
    + destruct (isLowSurrogate c); [done|].
      intros (e' & He' & ->)%fmap_Some. right. right.
      split; [done|]. split; [done|]. split; [done|]. by exists e'.
Qed.

Lemma encodeURIComponent_safe (s e : jsstring) :
  codeUnits s → encodeURIComponent s = Some e → Forall uriSafe e.
Proof.
  remember (length s) as n eqn:Hn. revert s e Hn.
  induction n as [n IH] using lt_wf_ind. intros s e Hn Hs He.
  destruct s as [|c r]; [simpl in He; simplify_eq; constructor|].
  apply Forall_cons in Hs as [Hc Hr]. simpl in Hn.
  destruct (encodeURIComponent_cons c r e He)
    as [(Hu & e' & He' & ->)
       | [(Hu & Hh & d & r' & e' & -> & Hl & He' & ->)
         | (Hu & Hh & Hl & e' & He' & ->)]].
  - constructor; [by left|]. eapply (IH (length r)); eauto. lia.
  - apply Forall_cons in Hr as [Hd Hr'].
    apply Forall_app. split.
    + apply escapeCodePoint_safe. reflect_chars. lia.
    + eapply (IH (length r')); eauto. simpl in Hn. lia.
  - apply Forall_app. split.
    + apply escapeCodePoint_safe. lia.
    + eapply (IH (length r)); eauto. lia.
Qed.

End Escape.


(** X14: the cursor cannot break out of its query parameter: whatever
    the cursor, everything after "since=" in the URL of a poll request is
    made of unreserved characters and percent signs, so the URL has no
    second parameter, no fragment and no further path. *)
Theorem poll_url_has_one_parameter (since : list N) (r : api.Request) :
  codeUnits since → api.pollMessages since = Some r →
  ∃ encoded,
    api.url r = JS.lit "/api/messages/poll?since=" ++ encoded
    ∧ Forall uriSafe encoded
    ∧ ∀ c, c ∈ encoded → c ∉ JS.lit "&=#?/+ ".
Proof.
  intros Hsince Hr. unfold api.pollMessages in Hr.
  destruct (JS.encodeURIComponent since) as [enc|] eqn:He; simplify_eq/=.
  exists enc. split; [done|].
  pose proof (encodeURIComponent_safe since enc Hsince He) as Hsafe.
  split; [done|]. intros c Hc Hbad.
  rewrite Forall_forall in Hsafe. unfold JS.lit in Hbad. simpl in Hbad.
  destruct (Hsafe c Hc) as [Hu | ->].
  - repeat (apply elem_of_cons in Hbad as [-> | Hbad];
            [vm_compute in Hu; discriminate Hu|]).
    by apply elem_of_nil in Hbad.
  - repeat (apply elem_of_cons in Hbad as [Heq | Hbad]; [discriminate Heq|]).
    by apply elem_of_nil in Hbad.
Qed.

Lemma poll_url_has_one_parameter_witness :
  let since := JS.lit "2024-01-01T00:00:00.000Z&x=1" in
  let r := api.mkRequest api.GET
             (JS.lit "/api/messages/poll?since=2024-01-01T00%3A00%3A00.000Z%26x%3D1")
             api.NoBody [] in
  codeUnits since ∧ api.pollMessages since = Some r
  ∧ ∃ encoded, api.url r = JS.lit "/api/messages/poll?since=" ++ encoded
               ∧ Forall uriSafe encoded.
Proof.
  intros since r.
  assert (Hsince : codeUnits since).
  { unfold codeUnits, since, JS.lit. simpl.
    repeat (apply Forall_cons; split; [reflexivity|]). constructor. }
  assert (Hr : api.pollMessages since = Some r) by (vm_compute; reflexivity).
  split; [exact Hsince|]. split; [exact Hr|].
  destruct (poll_url_has_one_parameter since r Hsince Hr)
    as (encoded & Hurl & Hsafe & _).
  by exists encoded.
Defined.

Section Injective.
Import JS.

Lemma hexDigit_inj (n m : N) :
  (n < 16)%N → (m < 16)%N → hexDigit n = hexDigit m → n = m.
Proof.
  unfold hexDigit. intros Hn Hm H. repeat case_match; reflect_chars; lia.
Qed.

Lemma percentEscape_inj (a b : N) :
  (a < 256)%N → (b < 256)%N → percentEscape a = percentEscape b → a = b.
Proof.
  unfold percentEscape. intros Ha Hb [= H1 H2].
  apply hexDigit_inj in H1; [|ndiv|ndiv].
  apply hexDigit_inj in H2; [|ndiv|ndiv].
  ndiv.
Qed.

Lemma escapes_inj (l1 l2 t1 t2 : jsstring) :
  Forall (λ o, (o < 256)%N) l1 → Forall (λ o, (o < 256)%N) l2 →
  length l1 = length l2 →
  (l1 ≫= percentEscape) ++ t1 = (l2 ≫= percentEscape) ++ t2 →
  l1 = l2 ∧ t1 = t2.
Proof.
  revert l2. induction l1 as [|a l1 IH]; intros [|b l2] H1 H2 Hlen Heq;
    simpl in *; try done.
  apply Forall_cons in H1 as [Ha H1]. apply Forall_cons in H2 as [Hb H2].
  injection Hlen as Hlen. injection Heq as Hh1 Hh2 Hrest.
  assert (a = b) as ->.
  { apply percentEscape_inj; [done..|]. unfold percentEscape. congruence. }
  destruct (IH l2 H1 H2 Hlen Hrest) as [-> ->]. done.
Qed.

Lemma utf8_nonempty (cp : N) : utf8 cp ≠ [].
Proof. unfold utf8. by repeat case_match. Qed.

Lemma utf8_first (cp o : N) (r : jsstring) :
  (cp < 1114112)%N → utf8 cp = o :: r →
  ((o < 128)%N ∧ length r = 0)
  ∨ ((192 <= o < 224)%N ∧ length r = 1)
  ∨ ((224 <= o < 240)%N ∧ length r = 2)
  ∨ ((240 <= o)%N ∧ length r = 3).
Proof.
  unfold utf8. intros Hcp E.
  repeat case_match; simplify_eq; reflect_chars.
  - left. split; [lia | done].
  - right. left. split; [ndiv | done].
  - right. right. left. split; [ndiv | done].
  - right. right. right. split; [ndiv | done].
Qed.

Lemma utf8_same_width (cp1 cp2 o : N) (r1 r2 : jsstring) :
  (cp1 < 1114112)%N → (cp2 < 1114112)%N →
  utf8 cp1 = o :: r1 → utf8 cp2 = o :: r2 → length r1 = length r2.
Proof.
  intros H1 H2 E1 E2.
  destruct (utf8_first cp1 o r1 H1 E1) as [[??] | [[??] | [[??] | [??]]]];
    destruct (utf8_first cp2 o r2 H2 E2) as [[??] | [[??] | [[??] | [??]]]];
    lia.
Qed.

Lemma utf8_inj (cp1 cp2 : N) :
  (cp1 < 1114112)%N → (cp2 < 1114112)%N → utf8 cp1 = utf8 cp2 → cp1 = cp2.
Proof.
  intros H1 H2 E.
  destruct (utf8 cp2) as [|o r2] eqn:E2; [by apply utf8_nonempty in E|].
  pose proof (utf8_first cp1 o r2 H1 E) as W1.
  pose proof (utf8_first cp2 o r2 H2 E2) as W2.
  unfold utf8 in E, E2.
  repeat case_match; simplify_eq; reflect_chars; simpl in *;
    try lia; ndiv.
Qed.

Lemma escapeCodePoint_head (cp : N) :
  ∃ rest, escapeCodePoint cp = 37%N :: rest.
Proof.
  unfold escapeCodePoint. pose proof (utf8_nonempty cp).
  destruct (utf8 cp); [done|]. simpl. eauto.
Qed.

Lemma escapeCodePoint_inj (cp1 cp2 : N) (t1 t2 : jsstring) :
  (cp1 < 1114112)%N → (cp2 < 1114112)%N →
  escapeCodePoint cp1 ++ t1 = escapeCodePoint cp2 ++ t2 →
  cp1 = cp2 ∧ t1 = t2.
Proof.
  intros H1 H2 Heq. unfold escapeCodePoint in Heq.
  pose proof (utf8_octets cp1 H1) as O1.
  pose proof (utf8_octets cp2 H2) as O2.
  pose proof (utf8_nonempty cp1) as N1.
  pose proof (utf8_nonempty cp2) as N2.
  destruct (utf8 cp1) as [|o1 r1] eqn:E1; [done|].
  destruct (utf8 cp2) as [|o2 r2] eqn:E2; [done|].
  assert (o1 = o2) as ->.
  { apply Forall_cons in O1 as [? _]. apply Forall_cons in O2 as [? _].
    simpl in Heq. injection Heq as Hh1 Hh2 _.
    apply percentEscape_inj; [done..|]. unfold percentEscape. congruence. }
  pose proof (utf8_same_width cp1 cp2 o2 r1 r2 H1 H2 E1 E2) as Hlen.
  destruct (escapes_inj (o2 :: r1) (o2 :: r2) t1 t2 O1 O2) as [Hl Ht];
    [simpl; by rewrite Hlen | done |].
  split; [|done]. apply utf8_inj; [done..|]. congruence.
Qed.

Lemma pairCodePoint_inj (c1 d1 c2 d2 : N) :
  isHighSurrogate c1 = true → isLowSurrogate d1 = true →
  isHighSurrogate c2 = true → isLowSurrogate d2 = true →
  pairCodePoint c1 d1 = pairCodePoint c2 d2 → c1 = c2 ∧ d1 = d2.
Proof. intros. reflect_chars. lia. Qed.

Lemma encodeURIComponent_nonempty (c : N) (r : jsstring) :
  encodeURIComponent (c :: r) ≠ Some [].
Proof.
  intros He.
  destruct (encodeURIComponent_cons c r [] He)
    as [(_ & ? & _ & ?) | [(_ & _ & d & ? & e' & _ & _ & _ & Heq)
                          | (_ & _ & _ & e' & _ & Heq)]]; [done|..].
  - destruct (escapeCodePoint_head (pairCodePoint c d)) as [? Hh].
    by rewrite Hh in Heq.
  - destruct (escapeCodePoint_head c) as [? Hh]. by rewrite Hh in Heq.
Qed.

Lemma encodeURIComponent_inj (s1 s2 e : jsstring) :
  codeUnits s1 → codeUnits s2 →
  encodeURIComponent s1 = Some e → encodeURIComponent s2 = Some e →
  s1 = s2.
Proof.
  remember (length s1) as n eqn:Hn. revert s1 s2 e Hn.
  induction n as [n IH] using lt_wf_ind. intros s1 s2 e Hn Hs1 Hs2 He1 He2.
  assert (Hpercent : isUnreserved 37 = false) by reflexivity.
  destruct s1 as [|c1 r1], s2 as [|c2 r2]; [done|..].
  - simpl in He1. simplify_eq. by apply encodeURIComponent_nonempty in He2.
  - simpl in He2. simplify_eq. by apply encodeURIComponent_nonempty in He1.
  - apply Forall_cons in Hs1 as [Hc1 Hr1]. apply Forall_cons in Hs2 as [Hc2 Hr2].
    simpl in Hn.
    destruct (encodeURIComponent_cons c1 r1 e He1)
      as [(Hu1 & e1 & He1' & ->)
         | [(Hu1 & Hh1 & d1 & r1' & e1 & -> & Hl1 & He1' & ->)
           | (Hu1 & Hh1 & Hl1 & e1 & He1' & ->)]];
    destruct (encodeURIComponent_cons c2 r2 _ He2)
      as [(Hu2 & e2 & He2' & Heq)
         | [(Hu2 & Hh2 & d2 & r2' & e2 & -> & Hl2 & He2' & Heq)
           | (Hu2 & Hh2 & Hl2 & e2 & He2' & Heq)]].
    + simplify_eq. f_equal.
      by apply (IH (length r1) ltac:(lia) r1 r2 e2).
    + destruct (escapeCodePoint_head (pairCodePoint c2 d2)) as [? Hh].
      rewrite Hh in Heq. simpl in Heq. simplify_eq; congruence.
    + destruct (escapeCodePoint_head c2) as [? Hh].
      rewrite Hh in Heq. simpl in Heq. simplify_eq; congruence.
    + destruct (escapeCodePoint_head (pairCodePoint c1 d1)) as [? Hh].
      rewrite Hh in Heq. simpl in Heq. simplify_eq; congruence.
    + apply Forall_cons in Hr1 as [Hd1 Hr1]. apply Forall_cons in Hr2 as [Hd2 Hr2].
      apply escapeCodePoint_inj in Heq as [Hcp Htail];
        [|reflect_chars; lia..].
      destruct (pairCodePoint_inj c1 d1 c2 d2) as [-> ->]; try done.
      subst e2. do 2 f_equal.
      simpl in Hn.
      by apply (IH (length r1') ltac:(lia) r1' r2' e1).
    + apply escapeCodePoint_inj in Heq as [Hcp _]; [|reflect_chars; lia..].
      exfalso. reflect_chars. lia.
    + destruct (escapeCodePoint_head c1) as [? Hh].
      rewrite Hh in Heq. simpl in Heq. simplify_eq; congruence.
    + apply escapeCodePoint_inj in Heq as [Hcp _]; [|reflect_chars; lia..].
      exfalso. reflect_chars. lia.
    + apply escapeCodePoint_inj in Heq as [-> Htail]; [|lia..].
      subst e2. f_equal.
      by apply (IH (length r1) ltac:(lia) r1 r2 e1).
Qed.

End Injective.

(** X15: the URL of a poll request determines the cursor: two cursors
    that differ never give the same request, so the server can recover
    the cursor it was sent. *)
Theorem poll_url_determines_cursor (since1 since2 : list N)
    (r : api.Request) :
  codeUnits since1 → codeUnits since2 →
  api.pollMessages since1 = Some r → api.pollMessages since2 = Some r →
  since1 = since2.
Proof.
  intros H1 H2 Hr1 Hr2. unfold api.pollMessages in *.
  destruct (JS.encodeURIComponent since1) as [e1|] eqn:E1; simplify_eq/=.
  destruct (JS.encodeURIComponent since2) as [e2|] eqn:E2; simplify_eq/=.
  eapply encodeURIComponent_inj; eauto.
Qed.

Lemma poll_url_determines_cursor_witness :
  let since := JS.lit "2024-01-01T00:00:00.000Z" in
  let r := api.mkRequest api.GET
             (JS.lit "/api/messages/poll?since=2024-01-01T00%3A00%3A00.000Z")
             api.NoBody [] in
  codeUnits since ∧ api.pollMessages since = Some r
  ∧ ∀ other, codeUnits other → api.pollMessages other = Some r →
      other = since.
Proof.
  intros since r.
  assert (Hsince : codeUnits since).
  { unfold codeUnits, since, JS.lit. simpl.
    repeat (apply Forall_cons; split; [reflexivity|]). constructor. }
  assert (Hr : api.pollMessages since = Some r) by (vm_compute; reflexivity).
  split; [exact Hsince|]. split; [exact Hr|].
  intros other Hother Hr'.
  apply (poll_url_determines_cursor other since r Hother Hsince Hr' Hr).
Defined.

(** ** The poll request and its response *)

(** Decides the comparisons of a goal by arithmetic. *)
Ltac settle_tests :=
  repeat match goal with
    | |- context [(?a <? ?b)%N] =>
        first [ replace (a <? b)%N with true by (symmetry; apply N.ltb_lt; ndiv)
              | replace (a <? b)%N with false by (symmetry; apply N.ltb_ge; ndiv) ]
    | |- context [(?a <=? ?b)%N] =>
        first [ replace (a <=? b)%N with true by (symmetry; apply N.leb_le; ndiv)
              | replace (a <=? b)%N with false by (symmetry; apply N.leb_gt; ndiv) ]
    | |- context [(?a =? ?b)%N] =>
        first [ replace (a =? b)%N with true by (symmetry; apply N.eqb_eq; ndiv)
              | replace (a =? b)%N with false by (symmetry; apply N.eqb_neq; ndiv) ]
    end.

Section Decode.
Import JS URI.

Lemma hexValue_hexDigit (n : N) : (n < 16)%N → hexValue (hexDigit n) = Some n.
Proof.
  intros Hn. unfold hexValue, hexDigit.
  destruct (n <? 10)%N eqn:E; reflect_chars; settle_tests; simpl; f_equal; lia.
Qed.

Lemma unescape_percentEscape (o : N) (e : jsstring) :
  (o < 256)%N → unescape (percentEscape o ++ e) = (o ::.) <$> unescape e.
Proof.
  intros Ho. unfold percentEscape. simpl.
  rewrite !hexValue_hexDigit by ndiv. simpl.
  replace (o / 16 * 16 + o mod 16)%N with o by ndiv. done.
Qed.

Lemma unescape_escapes (os : list N) (e : jsstring) :
  Forall (λ o, (o < 256)%N) os →
  unescape ((os ≫= percentEscape) ++ e) = (os ++.) <$> unescape e.
Proof.
  induction 1 as [|o os Ho _ IH].
  - simpl. by destruct (unescape e).
  - rewrite bind_cons, <- app_assoc, unescape_percentEscape, IH by done.
    by destruct (unescape e).
Qed.

Lemma unescape_literal (c : N) (e : jsstring) :
  isUnreserved c = true → unescape (c :: e) = (c ::.) <$> unescape e.
Proof.
  intros Hc. pose proof (unreserved_ascii c Hc) as Hlt.
  assert (Hne : c ≠ 37%N) by (by intros ->).
  cbn [unescape]. by settle_tests.
Qed.

Lemma unescape_escapeCodePoint (cp : N) (e : jsstring) :
  (cp < 1114112)%N →
  unescape (escapeCodePoint cp ++ e) = (utf8 cp ++.) <$> unescape e.
Proof. intros Hcp. apply unescape_escapes. by apply utf8_octets. Qed.

(** [utf8Decode] reads back what [utf8] writes, for every code point
    that is not a surrogate. *)
Lemma utf8Decode_utf8 (cp : N) (os : list N) :
  (cp < 1114112)%N → ¬ (55296 ≤ cp ≤ 57343)%N →
  utf8Decode (utf8 cp ++ os) = (cp ::.) <$> utf8Decode os.
Proof.
  intros Hcp Hsur. unfold utf8.
  destruct (cp <? 128)%N eqn:E1; [|destruct (cp <? 2048)%N eqn:E2;
    [|destruct (cp <? 65536)%N eqn:E3]]; reflect_chars.
  - cbn [app utf8Decode]. by settle_tests.
  - cbn [app utf8Decode]. unfold isContinuation. settle_tests. cbn [andb].
    replace ((192 + cp / 64 - 192) * 64 + (128 + cp mod 64 - 128))%N
      with cp by ndiv.
    done.
  - cbn [app utf8Decode]. unfold isContinuation.
    replace ((224 + cp / 4096 - 224) * 4096
             + (128 + (cp / 64) mod 64 - 128) * 64
             + (128 + cp mod 64 - 128))%N with cp by ndiv.
    settle_tests. cbn [andb negb].
    destruct ((55296 <=? cp) && (cp <=? 57343))%N eqn:E; [|done].
    reflect_chars. lia.
  - cbn [app utf8Decode]. unfold isContinuation.
    replace ((240 + cp / 262144 - 240) * 262144
             + (128 + (cp / 4096) mod 64 - 128) * 4096
             + (128 + (cp / 64) mod 64 - 128) * 64
             + (128 + cp mod 64 - 128))%N with cp by ndiv.
    settle_tests. cbn [andb]. done.
Qed.

Lemma utf16_pair (c d : N) :
  isHighSurrogate c = true → isLowSurrogate d = true →
  utf16 (pairCodePoint c d) = [c; d].
Proof.
  intros Hc Hd. unfold utf16. reflect_chars. settle_tests.
  f_equal; [|f_equal]; ndiv.
Qed.

(** The three passes of the reading, on the result of
    [encodeURIComponent]. *)
Lemma encodeURIComponent_read (s e : jsstring) :
  codeUnits s → encodeURIComponent s = Some e →
  ∃ os cps, unescape e = Some os ∧ utf8Decode os = Some cps
            ∧ cps ≫= utf16 = s.
Proof.
  remember (length s) as n eqn:Hn. revert s e Hn.
  induction n as [n IH] using lt_wf_ind. intros s e Hn Hs He.
  destruct s as [|c r].
  { simpl in He. simplify_eq. by exists [], []. }
  apply Forall_cons in Hs as [Hc Hr]. simpl in Hn.
  destruct (encodeURIComponent_cons c r e He)
    as [(Hu & e' & He' & ->)
       | [(Hu & Hh & d & r' & e' & -> & Hl & He' & ->)
         | (Hu & Hh & Hl & e' & He' & ->)]].
  - destruct (IH (length r) ltac:(lia) r e' eq_refl Hr He')
      as (os & cps & Hos & Hcps & Hread).
    exists (c :: os), (c :: cps).
    pose proof (unreserved_ascii c Hu) as Hlt.
    rewrite unescape_literal, Hos by done. split; [done|].
    cbn [utf8Decode]. settle_tests. rewrite Hcps. split; [done|].
    rewrite bind_cons, Hread. unfold utf16. by settle_tests.
  - apply Forall_cons in Hr as [Hd Hr']. simpl in Hn.
    destruct (IH (length r') ltac:(lia) r' e' eq_refl Hr' He')
      as (os & cps & Hos & Hcps & Hread).
    pose proof (utf16_pair c d Hh Hl) as Hpair.
    assert (Hcp : (65536 ≤ pairCodePoint c d)%N
                  ∧ (pairCodePoint c d < 1114112)%N)
      by (reflect_chars; lia).
    destruct Hcp as [Hlo Hhi].
    exists (utf8 (pairCodePoint c d) ++ os), (pairCodePoint c d :: cps).
    rewrite unescape_escapeCodePoint, Hos by done. split; [done|].
    rewrite utf8Decode_utf8, Hcps by lia. split; [done|].
    by rewrite bind_cons, Hread, Hpair.
  - destruct (IH (length r) ltac:(lia) r e' eq_refl Hr He')
      as (os & cps & Hos & Hcps & Hread).
    exists (utf8 c ++ os), (c :: cps).
    rewrite unescape_escapeCodePoint, Hos by lia. split; [done|].
    assert (Hsur : ¬ (55296 ≤ c ≤ 57343)%N).
    { unfold isHighSurrogate, isLowSurrogate in Hh, Hl.
      apply andb_false_iff in Hh, Hl. rewrite !N.leb_gt in Hh, Hl. lia. }
    rewrite utf8Decode_utf8, Hcps by (done || lia).
    split; [done|].
    rewrite bind_cons, Hread. unfold utf16. by settle_tests.
Qed.

(** Decoding gives back what [encodeURIComponent] was given. *)
Lemma decodeComponent_encodeURIComponent (s e : jsstring) :
  codeUnits s → encodeURIComponent s = Some e → decodeComponent e = Some s.
Proof.
  intros Hs He.
  destruct (encodeURIComponent_read s e Hs He) as (os & cps & Hos & Hcps & <-).
  unfold decodeComponent. rewrite Hos. simpl. by rewrite Hcps.
Qed.

End Decode.

Section Response.
Import Chat.

(** What the continuation of [poll] takes from a response: the messages
    not yet on display, and the timestamp as the cursor. *)
Lemma poll_reads_response (st st' : State) (i : nat)
    (response : api.PollResponse) :
  step st (PollSettled i (Some response)) = Some st' →
  messages st' =
    messages st ++
    filter (λ m, Message.id m ∉ ids (messages st))
      (default [] (api.messages response))
  ∧ lastTimestamp st' = api.timestamp response.
Proof.
  intros Hstep.
  assert (Hmsgs : messages st' =
                  mergeMessages (default [] (api.messages response)) (messages st)).
  { step_cases Hstep; reflect_tests; try lia.
    all: try done.
    all: rewrite mergeMessages_spec.
    all: try (destruct l; simpl in *; [|lia]).
    all: by rewrite filter_nil, app_nil_r. }
  split; [by rewrite Hmsgs, mergeMessages_spec | by step_cases Hstep].
Qed.

(** The timer callback of an active loop is a poll with the cursor. *)
Lemma timer_polls_with_cursor (st st' : State) (id : nat) :
  isActive st = true →
  step st (TimerFired id) = Some st' →
  issued st st' = option_list (api.pollMessages (lastTimestamp st)).
Proof.
  intros Hact Hstep. simpl in Hstep.
  destruct (bool_decide (id ∈ (timers st).*1)); [|done]. simplify_eq.
  unfold issued, poll, clearTimeout, issue. simpl. rewrite Hact. simpl.
  destruct (api.pollMessages (lastTimestamp st)); simpl.
  - by rewrite drop_app_length.
  - by rewrite drop_all.
Qed.

End Response.

(** C7: for every cursor, the poll request is a GET without body whose
    URL is /api/messages/poll?since= followed by the URI-encoded cursor:
    a string of unreserved characters and percent escapes which,
    percent-decoded and read as UTF-8, is the cursor again; a cursor of
    unreserved characters is passed as it is.  (On a cursor with an
    unpaired surrogate [encodeURIComponent] throws and no request is
    made.)  The response to the request is read as a record with the
    fields [messages] and [timestamp]: the messages not yet on display
    are appended to the list, and the timestamp is the cursor with which
    the next poll request is made. *)
Theorem poll_request (since : jsstring) :
  codeUnits since →
  (JS.wellFormed since = true →
   ∃ encoded,
     api.pollMessages since =
       Some (api.mkRequest api.GET
               (JS.lit "/api/messages/poll?since=" ++ encoded) api.NoBody [])
     ∧ Forall uriSafe encoded
     ∧ URI.decodeComponent encoded = Some since)
  ∧ (JS.wellFormed since = false → api.pollMessages since = None)
  ∧ (Forall (λ c, JS.isUnreserved c = true) since →
     api.pollMessages since =
       Some (api.mkRequest api.GET
               (JS.lit "/api/messages/poll?since=" ++ since) api.NoBody []))
  ∧ ∀ st i response st',
      Chat.polls st !! i = Some (api.pollMessages since) →
      Chat.step st (Chat.PollSettled i (Some response)) = Some st' →
      Chat.messages st' =
        Chat.messages st ++
        filter (λ m, Message.id m ∉ ids (Chat.messages st))
          (default [] (api.messages response))
      ∧ Chat.lastTimestamp st' = api.timestamp response
      ∧ ∀ id st'',
          Chat.isActive st' = true →
          Chat.step st' (Chat.TimerFired id) = Some st'' →
          issued st' st'' =
            option_list (api.pollMessages (api.timestamp response)).
Proof.
  intros Hsince.
  pose proof (encodeURIComponent_defined since) as Hdef.
  split; [|split; [|split]].
  - intros Hwf. apply Hdef in Hwf as [encoded Henc].
    exists encoded. unfold api.pollMessages. rewrite Henc.
    split; [done|]. split.
    + by eapply encodeURIComponent_safe.
    + by apply decodeComponent_encodeURIComponent.
  - intros Hwf. unfold api.pollMessages.
    destruct (JS.encodeURIComponent since) as [encoded|]; [|done].
    assert (Hyes : JS.wellFormed since = true) by (apply Hdef; eauto).
    congruence.
  - intros Hplain. unfold api.pollMessages.
    by rewrite (encodeURIComponent_unreserved since Hplain).
  - intros st i response st' _ Hstep.
    destruct (poll_reads_response st st' i response Hstep) as [Hmsgs Hts].
    split; [done|]. split; [done|].
    intros id st'' Hact Htimer. rewrite <- Hts.
    by eapply timer_polls_with_cursor.
Qed.

Lemma poll_request_witness :
  let since := Scenario.odd_cursor in
  let a := Scenario.note "01" "Mac" "hi" in
  let st := Scenario.after Scenario.mounted
              [Chat.PollSettled 0 (Some (api.mkPollResponse (Some []) since));
               Chat.TimerFired 1] in
  let response := api.mkPollResponse (Some [a]) (JS.lit "2024-01-01T00:00:09.000Z") in
  let st' := Scenario.after st [Chat.PollSettled 0 (Some response)] in
  let st'' := Scenario.after st' [Chat.TimerFired 2] in
  codeUnits since
  ∧ api.pollMessages since =
      Some (api.mkRequest api.GET
              (JS.lit "/api/messages/poll?since=v%C3%A9%F0%9F%98%80")
              api.NoBody [])
  ∧ URI.decodeComponent (JS.lit "v%C3%A9%F0%9F%98%80") = Some since
  ∧ Chat.messages st' = [a]
  ∧ issued st' st'' =
      [api.mkRequest api.GET
         (JS.lit "/api/messages/poll?since=2024-01-01T00%3A00%3A09.000Z")
         api.NoBody []].
Proof.
  intros since a st response st' st''.
  assert (Hsince : codeUnits since).
  { unfold codeUnits. repeat (apply Forall_cons; split; [reflexivity|]).
    constructor. }
  destruct (poll_request since Hsince) as (Hreq & _ & _ & Hread).
  destruct (Hreq eq_refl) as (encoded & Hpoll & _ & Hdecode).
  assert (Hurl : api.pollMessages since =
            Some (api.mkRequest api.GET
                    (JS.lit "/api/messages/poll?since=v%C3%A9%F0%9F%98%80")
                    api.NoBody [])) by (vm_compute; reflexivity).
  assert (Hencoded : encoded = JS.lit "v%C3%A9%F0%9F%98%80").
  { rewrite Hurl in Hpoll. vm_compute in Hpoll. simplify_eq.
    vm_compute. reflexivity. }
  rewrite Hencoded in Hdecode.
  assert (Hpolls : Chat.polls st !! 0 = Some (api.pollMessages since))
    by (vm_compute; reflexivity).
  assert (Hstep : Chat.step st (Chat.PollSettled 0 (Some response)) = Some st')
    by (vm_compute; reflexivity).
  assert (Htimer : Chat.step st' (Chat.TimerFired 2) = Some st'')
    by (vm_compute; reflexivity).
  destruct (Hread st 0 response st' Hpolls Hstep) as (Hmsgs & _ & Hnext).
  split; [exact Hsince|]. split; [exact Hurl|]. split; [exact Hdecode|].
  split; [rewrite Hmsgs; vm_compute; reflexivity|].
  rewrite (Hnext 2 st'' eq_refl Htimer). vm_compute. reflexivity.
Defined.

(** ** The interval values and the resumption, at work *)

Lemma poll_interval_exact_witness :
  Chat.reachable Scenario.polling
  ∧ exact_interval (Chat.currentPollInterval Scenario.polling).
Proof.
  assert (Hreach : Chat.reachable Scenario.polling).
  { exists Scenario.page, Scenario.now, false, Scenario.polling_run.
    vm_compute. reflexivity. }
  split; [exact Hreach | apply (poll_interval_exact _ Hreach)].
Defined.

Lemma visible_resumes_witness :
  let st := Scenario.after Scenario.polling [Chat.VisibilityChange true] in
  let st' := Scenario.after st [Chat.VisibilityChange false] in
  Chat.isActive st = false
  ∧ Chat.step st (Chat.VisibilityChange false) = Some st'
  ∧ Chat.isActive st' = true
  ∧ length (Chat.polls st') = S (length (Chat.polls st)).
Proof.
  intros st st'.
  assert (Hoff : Chat.isActive st = false) by (vm_compute; reflexivity).
  assert (Hstep : Chat.step st (Chat.VisibilityChange false) = Some st')
    by (vm_compute; reflexivity).
  split; [exact Hoff|]. split; [exact Hstep|].
  destruct (visible_resumes st st' Hoff Hstep) as (Hon & _ & Hpolls & _).
  split; [exact Hon|]. rewrite Hpolls, length_app. simpl. lia.
Defined.

(** ** The initial load *)

(** X18: when the initial load succeeds, the loaded list replaces
    whatever was on display, also what polls and sends had put there
    while the load was under way: right after the load the display is the
    loaded list and nothing else.  From then on the loaded list stays the
    beginning of the display. *)
Theorem display_begins_with_loaded_list (st st' : Chat.State)
    (before later : list Chat.Event) (msgs : list Message.t) :
  Chat.run st (before ++ Chat.LoadMessagesSettled (Some msgs) :: later)
    = Some st' →
  ∃ st1 st2,
    Chat.run st before = Some st1
    ∧ Chat.step st1 (Chat.LoadMessagesSettled (Some msgs)) = Some st2
    ∧ Chat.run st2 later = Some st'
    ∧ Chat.messages st2 = msgs
    ∧ msgs `prefix_of` Chat.messages st'.
Proof.
  rewrite run_app. intros (st1 & Hbefore & Hrun)%bind_Some.
  change (Chat.step st1 (Chat.LoadMessagesSettled (Some msgs))
            ≫= (λ st2, Chat.run st2 later) = Some st') in Hrun.
  apply bind_Some in Hrun as (st2 & Hstep & Hrun).
  assert (Hloaded : Chat.messages st2 = msgs ∧
                    Chat.loadMessagesPending st2 = false)
    by (by step_cases Hstep).
  destruct Hloaded as [Hmsgs Hdone].
  exists st1, st2. repeat (split; [done|]).
  rewrite <- Hmsgs. by eapply run_messages_grow.
Qed.

Lemma display_begins_with_loaded_list_witness :
  let a := Scenario.note "01" "Mac" "hi" in
  let b := Scenario.note "00" "Mac" "earlier" in
  let before := [Chat.PollSettled 0 (Scenario.fulfilled [a] "2024-01-01T00:00:01.000Z")] in
  let evs := before ++ Chat.LoadMessagesSettled (Some [b]) :: [Chat.Render] in
  let st' := Scenario.after Scenario.mounted evs in
  Chat.run Scenario.mounted evs = Some st'
  ∧ Chat.messages (Scenario.after Scenario.mounted before) = [a]
  ∧ ∃ st2,
      Chat.step (Scenario.after Scenario.mounted before)
        (Chat.LoadMessagesSettled (Some [b])) = Some st2
      ∧ Chat.messages st2 = [b]
      ∧ [b] `prefix_of` Chat.messages st'.
Proof.
  intros a b before evs st'.
  assert (Hrun : Chat.run Scenario.mounted evs = Some st')
    by (vm_compute; reflexivity).
  split; [exact Hrun|]. split; [vm_compute; reflexivity|].
  destruct (display_begins_with_loaded_list _ _ before [Chat.Render] [b] Hrun)
    as (st1 & st2 & Hbefore & Hstep & _ & Hmsgs & Hprefix).
  exists st2. split; [|by split].
  assert (Hst1 : Chat.run Scenario.mounted before =
                 Some (Scenario.after Scenario.mounted before))
    by (vm_compute; reflexivity).
  rewrite Hst1 in Hbefore. by injection Hbefore as <-.
Defined.

Section History.
Import Chat.

Lemma pollMessages_not_load (since : jsstring) (r : api.Request) :
  api.pollMessages since = Some r → isLoadRequest r = false.
Proof.
  unfold api.pollMessages, isLoadRequest.
  destruct (JS.encodeURIComponent since) as [enc|]; simpl; [|done].
  by intros [= <-].
Qed.

Lemma sendRequest_not_load (name : jsstring) (c : SendCall) (r : api.Request) :
  sendRequest name c = Some r → isLoadRequest r = false.
Proof.
  unfold sendRequest. intros H. by repeat case_match; simplify_eq.
Qed.

End History.

(** X19: the history is requested once, when the component mounts, and
    never again: no later event makes the client repeat GET /api/messages,
    not even a load that failed. *)
Theorem history_requested_once (st : Chat.State) :
  Chat.reachable st →
  filter (λ r, isLoadRequest r = true) (Chat.sent st) = [api.getMessages].
Proof.
  revert st. apply reachable_ind.
  - intros search now hidden. unfold Chat.mount, Chat.poll, Chat.issue. simpl.
    destruct (api.pollMessages now) as [r|] eqn:Hr; simpl; [|done].
    apply pollMessages_not_load in Hr.
    rewrite filter_cons_True by done. rewrite filter_cons_False, filter_nil; [done|].
    by rewrite Hr.
  - intros st e st' IH Hstep.
    destruct (step_issued st st' e Hstep) as (-> & [-> | [(r & Hr & ->) | (c & r & Hr & ->)]]).
    + by rewrite app_nil_r.
    + apply pollMessages_not_load in Hr.
      rewrite filter_app, IH, filter_cons_False, filter_nil; [done|].
      by rewrite Hr.
    + apply sendRequest_not_load in Hr.
      rewrite filter_app, IH, filter_cons_False, filter_nil; [done|].
      by rewrite Hr.
Qed.

Lemma history_requested_once_witness :
  let st := Scenario.after Scenario.mounted
              [Chat.LoadMessagesSettled None; Chat.InitDeviceResolved;
               Chat.Render; Chat.PollSettled 0 None; Chat.TimerFired 1] in
  Chat.reachable st
  ∧ filter (λ r, isLoadRequest r = true) (Chat.sent st) = [api.getMessages].
Proof.
  intros st.
  assert (Hreach : Chat.reachable st).
  { exists Scenario.page, Scenario.now, false,
      [Chat.LoadMessagesSettled None; Chat.InitDeviceResolved;
       Chat.Render; Chat.PollSettled 0 None; Chat.TimerFired 1].
    vm_compute. reflexivity. }
  split; [exact Hreach | apply (history_requested_once st Hreach)].
Defined.

(** ** The round trip of the cursor *)

Section RoundTrip.
Import Chat.

Lemma pollMessages_isPollRequest (since : jsstring) (r : api.Request) :
  api.pollMessages since = Some r → isPollRequest r = true.
Proof.
  unfold api.pollMessages.
  destruct (JS.encodeURIComponent since) as [enc|]; [|done].
  intros [= <-]. by destruct enc; vm_compute.
Qed.

Lemma poll_requests_issue (l : list api.Request) (since : jsstring) :
  filter (λ r, isPollRequest r = true) (l ++ option_list (api.pollMessages since))
  = filter (λ r, isPollRequest r = true) l ++ option_list (api.pollMessages since).
Proof.
  rewrite filter_app. f_equal.
  destruct (api.pollMessages since) as [r|] eqn:Hr; simpl; [|done].
  apply pollMessages_isPollRequest in Hr.
  by rewrite filter_cons_True, filter_nil.
Qed.

(** One turn of a single loop whose poll in flight, if any, was made
    with the cursor: the poll completes, or the next poll is made with
    the cursor, or the loop is left alone. *)
Lemma single_step_loop (st st' : State) (e : Event) :
  single st →
  (polls st = [] ∨ polls st = [api.pollMessages (lastTimestamp st)]) →
  (e = VisibilityChange false → isActive st = false → polls st = []) →
  step st e = Some st' →
  (∃ i o, e = PollSettled i o
     ∧ polls st = [api.pollMessages (lastTimestamp st)] ∧ polls st' = []
     ∧ lastTimestamp st' = next_cursor (lastTimestamp st) o
     ∧ poll_requests st' = poll_requests st)
  ∨ ((∀ evs, outcomes (e :: evs) = outcomes evs)
     ∧ lastTimestamp st' = lastTimestamp st
     ∧ ((polls st = [] ∧ polls st' = [api.pollMessages (lastTimestamp st)]
         ∧ poll_requests st' =
             poll_requests st ++ option_list (api.pollMessages (lastTimestamp st)))
        ∨ (polls st' = polls st ∧ poll_requests st' = poll_requests st))).
Proof.
  unfold single, poll_requests. intros (Hlen & Htracked & Hoff) Hcur Hcalm Hstep.
  assert (Hsend : ∀ c r,
            sendRequest (Rendered.deviceName (rendered st)) c = Some r →
            filter (λ r, isPollRequest r = true) (sent st ++ [r]) =
              filter (λ r, isPollRequest r = true) (sent st)).
  { intros c r Hr%sendRequest_not_poll.
    rewrite filter_app, filter_cons_False, filter_nil, app_nil_r; [done|].
    by rewrite Hr. }
  pose proof (poll_requests_issue (sent st) (lastTimestamp st)) as Hpoll.
  destruct e as [| | o | i o | id | [] | value | | sel kind | items | i o].
  all: try (right; split; [done|]; step_cases Hstep; reflect_tests;
            (split; [done|]); right; (split; [done|]); by eauto).
  - (* a poll completes *)
    left. exists i, o. split; [done|]. simpl in Hstep.
    destruct Hcur as [Hp | Hp]; rewrite Hp in Hstep |- *.
    { by rewrite lookup_nil in Hstep. }
    destruct i as [|i]; simpl in Hstep; [|done].
    split; [done|].
    destruct o as [response|], (api.pollMessages (lastTimestamp st));
      simplify_eq; unfold poll_resume, setTimeout_poll;
      repeat case_match; done.
  - (* a timer fires *)
    right. split; [done|]. simpl in Hstep.
    destruct (bool_decide (id ∈ (timers st).*1)) eqn:Hin; [|done].
    apply bool_decide_eq_true in Hin. simplify_eq.
    destruct (timers st) as [|t ts] eqn:Ht; [by apply elem_of_nil in Hin|].
    assert (Hp : polls st = []).
    { destruct (polls st); [done|]. simpl in Hlen. lia. }
    assert (Hact : isActive st = true).
    { destruct (isActive st); [done|]. by specialize (Hoff eq_refl). }
    unfold poll, clearTimeout, issue. simpl. rewrite Hact, Hp. simpl.
    split; [by destruct (api.pollMessages (lastTimestamp st))|]. left.
    split; [done|].
    destruct (api.pollMessages (lastTimestamp st)); simpl in *;
      rewrite ?app_nil_r in *; by rewrite ?Hp.
  - (* the document is shown *)
    right. split; [done|]. simpl in Hstep. simplify_eq.
    unfold handleVisibilityChange, poll, issue. simpl.
    destruct (isActive st) eqn:Hact; simpl.
    { split; [done|]. by right. }
    specialize (Hcalm eq_refl eq_refl). rewrite Hcalm.
    split; [by destruct (api.pollMessages (lastTimestamp st))|]. left.
    split; [done|].
    destruct (api.pollMessages (lastTimestamp st)); simpl in *;
      rewrite ?app_nil_r in *; by rewrite ?Hcalm.
Qed.

Lemma cursors_head (cursor : list N) (os : list (option api.PollResponse)) :
  ∃ rest, cursors cursor os = cursor :: rest.
Proof. destruct os; simpl; eauto. Qed.

Lemma single_run_loop (evs : list Event) (st st' : State) :
  single st →
  (polls st = [] ∨ polls st = [api.pollMessages (lastTimestamp st)]) →
  calm st evs → run st evs = Some st' →
  length (polls st) ≤ length (outcomes evs) + length (polls st')
  ∧ poll_requests st' =
      poll_requests st ++
      omap api.pollMessages
        (drop (length (polls st))
           (take (length (outcomes evs) + length (polls st'))
              (cursors (lastTimestamp st) (outcomes evs)))).
Proof.
  revert st. induction evs as [|e evs IH]; intros st Hsingle Hcur Hcalm Hrun.
  - simpl in Hrun. simplify_eq. simpl. split; [lia|].
    rewrite drop_ge, app_nil_r; [done|]. rewrite length_take. lia.
  - destruct Hcalm as [He Hcalm]. simpl in Hrun.
    destruct (step st e) as [st1|] eqn:Hstep; [|done].
    pose proof (single_step st st1 e Hsingle He Hstep) as Hsingle1.
    destruct (single_step_loop st st1 e Hsingle Hcur He Hstep)
      as [(i & o & -> & Hp & Hp1 & Hts & Hreq)
         | (Hout & Hts & [(Hp & Hp1 & Hreq) | (Hp1 & Hreq)])].
    + destruct (IH st1 Hsingle1 (or_introl Hp1) Hcalm Hrun) as [_ IHreq].
      rewrite Hp, Hp1, Hts, Hreq in *. simpl. split; [lia|].
      by rewrite IHreq.
    + assert (Hcur1 : polls st1 = [api.pollMessages (lastTimestamp st1)])
        by (by rewrite Hts).
      destruct (IH st1 Hsingle1 (or_intror Hcur1) Hcalm Hrun) as [IHlen IHreq].
      rewrite Hout. rewrite Hp, Hp1, Hts, Hreq in *. simpl in *.
      split; [lia|]. rewrite IHreq, <- app_assoc. f_equal.
      destruct (cursors_head (lastTimestamp st) (outcomes evs)) as [rest ->].
      destruct (length (outcomes evs) + length (polls st')) as [|k]; [lia|].
      simpl. by destruct (api.pollMessages (lastTimestamp st)).
    + assert (Hcur1 : polls st1 = []
                      ∨ polls st1 = [api.pollMessages (lastTimestamp st1)])
        by (by rewrite Hp1, Hts).
      destruct (IH st1 Hsingle1 Hcur1 Hcalm Hrun) as [IHlen IHreq].
      rewrite Hout. by rewrite Hp1, Hts, Hreq in *.
Qed.

End RoundTrip.

(** X20: as long as the document is shown again only when no poll is in
    flight, the poll requests form one chain of round trips: the first
    carries the time of the mount, and each later one carries the
    [timestamp] of the response to the request before it, or the cursor
    of the request before it when that one failed.  No request is made
    twice or left out: there is one for every poll completed, and one
    more while a poll is in flight. *)
Theorem poll_round_trips (search : api.URLSearchParams) (now : list N)
    (hidden : bool) (evs : list Chat.Event) (st : Chat.State) :
  calm (Chat.mount search now hidden) evs →
  Chat.run (Chat.mount search now hidden) evs = Some st →
  poll_requests st =
    omap api.pollMessages
      (take (length (outcomes evs) + length (Chat.polls st))
         (cursors now (outcomes evs))).
Proof.
  intros Hcalm Hrun.
  assert (Hsingle : single (Chat.mount search now hidden)).
  { unfold single, Chat.mount, Chat.poll, Chat.issue. simpl.
    by destruct (api.pollMessages now). }
  assert (Hts : Chat.lastTimestamp (Chat.mount search now hidden) = now).
  { unfold Chat.mount, Chat.poll, Chat.issue. simpl.
    by destruct (api.pollMessages now). }
  assert (Hcur : Chat.polls (Chat.mount search now hidden) =
                 [api.pollMessages
                    (Chat.lastTimestamp (Chat.mount search now hidden))]).
  { rewrite Hts. unfold Chat.mount, Chat.poll, Chat.issue. simpl.
    by destruct (api.pollMessages now). }
  assert (Hreq : poll_requests (Chat.mount search now hidden) =
                 option_list (api.pollMessages now)).
  { unfold poll_requests, Chat.mount, Chat.poll, Chat.issue. simpl.
    destruct (api.pollMessages now) as [r|] eqn:Hr; simpl;
      rewrite filter_cons_False by (vm_compute; discriminate); [|done].
    apply pollMessages_isPollRequest in Hr.
    by rewrite filter_cons_True, filter_nil. }
  destruct (single_run_loop evs _ st Hsingle (or_intror Hcur) Hcalm Hrun)
    as [Hlen ->].
  rewrite Hcur, Hts, Hreq in *. simpl in Hlen.
  destruct (cursors_head now (outcomes evs)) as [rest ->].
  destruct (length (outcomes evs) + length (Chat.polls st)) as [|k]; [lia|].
  simpl. by destruct (api.pollMessages now).
Qed.

Lemma poll_round_trips_witness :
  let a := Scenario.note "01" "Mac" "hi" in
  let evs := Scenario.polling_run ++
               [Chat.PollSettled 0 (Scenario.fulfilled [a] "2024-01-01T00:00:09.000Z");
                Chat.TimerFired 2; Chat.PollSettled 0 None] in
  let st := Scenario.after Scenario.mounted evs in
  calm Scenario.mounted evs
  ∧ Chat.run Scenario.mounted evs = Some st
  ∧ poll_requests st =
      omap api.pollMessages
        [Scenario.now; JS.lit "2024-01-01T00:00:03.000Z";
         JS.lit "2024-01-01T00:00:09.000Z"].
Proof.
  intros a evs st.
  assert (Hcalm : calm Scenario.mounted evs).
  { vm_compute. repeat split; intros; discriminate || done. }
  assert (Hrun : Chat.run Scenario.mounted evs = Some st)
    by (vm_compute; reflexivity).
  split; [exact Hcalm|]. split; [exact Hrun|].
  rewrite (poll_round_trips Scenario.page Scenario.now false evs st Hcalm Hrun).
  vm_compute. reflexivity.
Defined.
